(** * Tenant rate review: the suggestion engine of [streamlit_app.py]

    A shallow embedding of the decision logic of the Streamlit script:
    the rounder [round_to_step], the unit-type normalisation, the
    competitor index [comp_by_unit] and the per-row function [suggest].

    Numbers.  The script computes on Python floats.  A float is modelled
    as either [NaN] (the missing-value sentinel pandas produces with
    [errors="coerce"]) or an exact rational [Fin q]; binary rounding
    error and infinities are outside the model.  Equality of numbers is
    [Qeq] ([==]).  The script runs under Python 3, whose built-in
    [round] rounds a tie to the even neighbour.

    What the idealisation leaves out.  Products, quotients and means are
    exact here and rounded to binary64 in the script, and a product that
    overflows becomes an infinity there, on which [round] raises
    [OverflowError].  The statements below are therefore of two kinds.
    Those that compare values, follow the control flow or read the
    rationale do not depend on how a product is rounded.  Those that
    bound the distance between a value and its rounded multiple, or say
    that a call returns, are stated for magnitudes up to [binary64_safe],
    a range in which every integer and half-integer is a binary64 value
    and no product overflows.  For the rounder the gap is closed by a
    proof: on a binary64 value in that range, rounding the float
    quotient [val / step], of which only the guarantees of IEEE 754 are
    assumed ([binary64_result]), gives the same integer as rounding the
    exact quotient. *)

From Stdlib Require Import ZArith QArith Qround Qabs Qpower Lia Lqa Bool List.
From Stdlib Require Import Ascii String.
From stdpp Require Import base option gmap strings pretty.
Import ListNotations.

Local Open Scope Q_scope.

(** ** Python floats *)

Inductive num : Type :=
| NaN
| Fin (q : Q).

(** [np.isnan] *)
Definition isnan (x : num) : bool :=
  match x with NaN => true | Fin _ => false end.

Definition Qltb (a b : Q) : bool := negb (Qle_bool b a).

(** [a > b] and [a < b] on floats: every comparison with NaN is False. *)
Definition fgt (a b : num) : bool :=
  match a, b with
  | Fin x, Fin y => Qltb y x
  | _, _ => false
  end.

Definition flt (a b : num) : bool := fgt b a.

Definition fmul (a b : num) : num :=
  match a, b with
  | Fin x, Fin y => Fin (x * y)
  | _, _ => NaN
  end.

(** Python's two-argument [max(a, b)] keeps [a] unless [b > a];
    [min(a, b)] keeps [a] unless [b < a]. *)
Definition py_max (a b : num) : num := if fgt b a then b else a.
Definition py_min (a b : num) : num := if flt b a then b else a.

(** The same on two finite settings. *)
Definition Qpy_max (a b : Q) : Q := if Qltb a b then b else a.

(** Equality of floats up to the representation of the rational. *)
Definition num_eq (a b : num) : Prop :=
  match a, b with
  | NaN, NaN => True
  | Fin x, Fin y => x == y
  | _, _ => False
  end.

(** The magnitude up to which the statements about rounding distances
    and about returning are made: [2 ^ 49].  Up to twice this bound
    every integer and every half-integer is a binary64 value, so the
    rounded quotient [val / step] lies on the same side of every
    half-integer as the exact one, and no product of a value in range
    with a sidebar factor overflows. *)
Definition binary64_safe : Q := inject_Z (2 ^ 49).

(** A number is in range when it is missing or of magnitude at most
    [binary64_safe]. *)
Definition in_range (x : num) : Prop :=
  match x with
  | NaN => True
  | Fin q => Qabs q <= binary64_safe
  end.

(** The values a Python float can hold, infinities and NaN apart: a
    53-bit integer scaled by a power of two. *)
Definition is_binary64 (x : Q) : Prop :=
  exists m e : Z,
    (Z.abs m < 2 ^ 53)%Z /\ (-1074 <= e <= 971)%Z /\
    x == inject_Z m * 2 ^ e.

(** What IEEE 754 guarantees of the float [f] an operation returns when
    its exact result is [q] (and does not overflow): [f] is [q] itself
    when [q] is a binary64 value, and otherwise it is off by at most
    half a unit in the last place, which is at most [|q| * 2 ^ -53] in
    the normal range and [2 ^ -1075] below it. *)
Definition binary64_result (q f : Q) : Prop :=
  (is_binary64 q -> f == q) /\
  (2 ^ (-1022) <= Qabs q -> Qabs (f - q) <= Qabs q * 2 ^ (-53)) /\
  (Qabs q < 2 ^ (-1022) -> Qabs (f - q) <= 2 ^ (-1075)).

(** ** Exceptions *)

Inductive exn : Type :=
| ValueError          (* cannot convert float NaN to integer *)
| ZeroDivisionError.

Inductive result (A : Type) : Type :=
| Ok (a : A)
| Raise (e : exn).
Arguments Ok {A} a.
Arguments Raise {A} e.

(** An exception propagates through everything that follows. *)
#[global] Instance result_bind : MBind result :=
  fun A B (k : A -> result B) (r : result A) =>
    match r with
    | Ok a => k a
    | Raise e => Raise e
    end.

(** ** The rounder *)

(** Python 3 [round(x)] on a finite float: nearest integer, a tie goes
    to the even neighbour. *)
Definition round_half_even (q : Q) : Z :=
  let f := Qfloor q in
  let r := q - inject_Z f in
  if Qltb r (1 # 2) then f
  else if Qltb (1 # 2) r then (f + 1)%Z
  else if Z.even f then f else (f + 1)%Z.

(** [round(x)]: NaN cannot be converted to an integer.  (Neither can an
    infinity, on which [round] raises [OverflowError]; infinities are
    not values of the model, and the statements that say a call returns
    are made for magnitudes in range.) *)
Definition py_round (x : num) : result Z :=
  match x with
  | NaN => Raise ValueError
  | Fin q => Ok (round_half_even q)
  end.

(** [val / step] with an integer [step]: the exact quotient.  The float
    the script obtains is related to it by [binary64_result]. *)
Definition fdiv_int (val : num) (step : Z) : result num :=
  if (step =? 0)%Z then Raise ZeroDivisionError
  else Ok (match val with
           | NaN => NaN
           | Fin q => Fin (q / inject_Z step)
           end).

(** [def round_to_step(val, step=5): return int(round(val / step) * step)] *)
Definition round_to_step (val : num) (step : Z) : result Z :=
  quot ← fdiv_int val step;
  k ← py_round quot;
  Ok (k * step)%Z.

(** ** Policy: the sidebar settings *)

(** The module-level settings read from the sidebar.  The percentages
    are already divided by [100.0]. *)
Record Policy : Type := {
  default_increase_pct : Q;
  cadence_months : Z;
  min_inc : Q;
  max_inc : Q;
  band_vs_comp : Q;
  band_vs_standard : Q;
  round_step : Z
}.

(** The ranges the [st.sidebar.number_input] widgets and the rounding
    [selectbox] enforce. *)
Definition sidebar_ok (p : Policy) : Prop :=
  0 <= default_increase_pct p <= 1 # 2 /\
  (1 <= cadence_months p <= 36)%Z /\
  0 <= min_inc p <= 1 # 2 /\
  0 <= max_inc p <= 1 /\
  0 <= band_vs_comp p <= 1 # 2 /\
  0 <= band_vs_standard p <= 1 # 2 /\
  (round_step p = 1 \/ round_step p = 5)%Z.

(** The same policy with another competitor band. *)
Definition with_band (p : Policy) (b : Q) : Policy :=
  {| default_increase_pct := default_increase_pct p;
     cadence_months := cadence_months p;
     min_inc := min_inc p;
     max_inc := max_inc p;
     band_vs_comp := b;
     band_vs_standard := band_vs_standard p;
     round_step := round_step p |}.

(** ** Tenant rows *)

(** One row of [df]; the numeric columns went through
    [pd.to_numeric(errors="coerce")], so a bad cell is [NaN]. *)
Record Row : Type := {
  unit_type : string;
  current_standard_rate : num;
  current_tenant_rate : num;
  pending_tenant_rate : num;
  months_since_last_increase : num
}.

(** ** Formatting *)

(** The [:.0f] format: the value rounded to an integer (ties to even),
    with the sign of the value kept; ["nan"] for NaN. *)
Definition fmt0 (x : num) : string :=
  match x with
  | NaN => "nan"
  | Fin q =>
      (if Qltb q 0 then "-" else "") +:+ pretty (Z.abs (round_half_even q))
  end.

(** [" ".join(l)] *)
Fixpoint join_space (l : list string) : string :=
  match l with
  | [] => ""
  | [s] => s
  | s :: l' => s +:+ " " +:+ join_space l'
  end.

(** ** The suggestion engine *)

(** The [pd.Series] returned by [suggest]. *)
Record Suggestion : Type := {
  suggested_rate : Z;
  action : string;
  rationale : string
}.

Section Engine.

Variable p : Policy.
(** The competitor index consulted by [suggest]. *)
Variable comp_by_unit : gmap string num.

(** Base target per cadence. *)
Definition base_inc (months : num) : Q :=
  if negb (isnan months) && flt months (Fin (inject_Z (cadence_months p)))
  then Qpy_max (min_inc p) (default_increase_pct p / 2)
  else default_increase_pct p.

(** [target = cur * (1 + base_inc)] *)
Definition raw_target (cur : num) (months : num) : num :=
  fmul cur (Fin (1 + base_inc months)).

(** [target = max(cur * (1 + min_inc), min(cur * (1 + max_inc), target))] *)
Definition envelope (cur target : num) : num :=
  py_max (fmul cur (Fin (1 + min_inc p)))
         (py_min (fmul cur (Fin (1 + max_inc p))) target).

(** [comp_by_unit.get(unit, np.nan)] *)
Definition comp_avg_of (unit : string) : num :=
  default NaN (comp_by_unit !! unit).

(** The competitor block: the state is the running [target] and the
    [rationale] list. *)
Definition competitor_band (unit : string) (comp_avg : num)
    (target : num) (rationale : list string) : num * list string :=
  if negb (isnan comp_avg) then
    let rationale :=
      rationale ++ ["Comp avg for '" +:+ unit +:+ "' ≈ $" +:+ fmt0 comp_avg +:+ "."] in
    let comp_max := fmul comp_avg (Fin (1 + band_vs_comp p)) in
    let comp_min := fmul comp_avg (Fin (1 - band_vs_comp p)) in
    let '(target, rationale) :=
      if fgt target comp_max
      then (comp_max,
            rationale ++ ["Above comp ceiling $" +:+ fmt0 comp_max +:+ "; capping."])
      else (target, rationale) in
    if flt target comp_min
    then (py_max target comp_min,
          rationale ++ ["Below comp floor $" +:+ fmt0 comp_min +:+ "; raising."])
    else (target, rationale)
  else
    (target, rationale ++ ["No competitor data; using policy caps/standard."]).

(** The standard-rate block. *)
Definition standard_cap (std : num) (target : num) (rationale : list string)
    : num * list string :=
  if negb (isnan std) then
    let std_cap := fmul std (Fin (1 + band_vs_standard p)) in
    if fgt target std_cap
    then (std_cap,
          rationale ++ ["Over standard cap $" +:+ fmt0 std_cap +:+ "; capping."])
    else (target, rationale)
  else (target, rationale).

(** The value of [target] after the policy clamp. *)
Definition envelope_target (row : Row) : num :=
  let cur := current_tenant_rate row in
  let months := months_since_last_increase row in
  let target := raw_target cur months in
  envelope cur target.

(** The value of [target] and of [rationale] after the competitor
    block; [rationale] starts empty. *)
Definition banded (row : Row) : num * list string :=
  let unit := unit_type row in
  let rationale := [] in
  let comp_avg := comp_avg_of unit in
  competitor_band unit comp_avg (envelope_target row) rationale.

(** The value of [target] and of [rationale] just before
    [target = round_to_step(target, round_step)]. *)
Definition pre_round (row : Row) : num * list string :=
  let std := current_standard_rate row in
  let '(target, rationale) := banded row in
  standard_cap std target rationale.

Definition pre_round_target (row : Row) : num := fst (pre_round row).

(** The pending block: the action and the closing clause. *)
Definition pending_action (pend : num) (target : Z) (rationale : list string)
    : string * list string :=
  let ftarget := Fin (inject_Z target) in
  if negb (isnan pend) then
    let action :=
      if fgt ftarget (fmul pend (Fin (101 # 100))) then "increase"
      else if flt ftarget (fmul pend (Fin (99 # 100))) then "decrease"
      else "keep" in
    (action,
     rationale ++ ["Pending $" +:+ fmt0 pend +:+ " → Suggested $" +:+
                   fmt0 ftarget +:+ " ⇒ " +:+ action +:+ "."])
  else
    ("set", rationale ++ ["No pending; set $" +:+ fmt0 ftarget +:+ "."]).

(** The body of [suggest] up to the [return]: the rounded target, the
    action and the list of rationale clauses. *)
Definition suggest_trace (row : Row) : result (Z * string * list string) :=
  let '(target, rationale) := pre_round row in
  target ← round_to_step target (round_step p);
  let '(action, rationale) :=
    pending_action (pending_tenant_rate row) target rationale in
  Ok (target, action, rationale).

Definition suggest (row : Row) : result Suggestion :=
  '(target, action, rationale) ← suggest_trace row;
  Ok {| suggested_rate := target;
        action := action;
        rationale := join_space rationale |}.

(** [df.apply(suggest, axis=1)]: the rows are evaluated in order and the
    first exception leaves [apply], so no output table is built. *)
Fixpoint apply_suggest (rows : list Row) : result (list Suggestion) :=
  match rows with
  | [] => Ok []
  | row :: rest =>
      s ← suggest row;
      ss ← apply_suggest rest;
      Ok (s :: ss)
  end.

End Engine.

(** ** Reading a rationale *)

(** [s.startswith(pre)] *)
Fixpoint starts_with (pre s : string) : bool :=
  match pre with
  | EmptyString => true
  | String a pre' =>
      match s with
      | EmptyString => false
      | String b s' => Ascii.eqb a b && starts_with pre' s'
      end
  end.

(** The clause kinds, recognised by their fixed text. *)
Definition is_comp_avg_clause (c : string) : bool :=
  starts_with "Comp avg for '" c.

Definition is_no_comp_clause (c : string) : bool :=
  String.eqb c "No competitor data; using policy caps/standard.".

Definition is_opening_clause (c : string) : bool :=
  is_comp_avg_clause c || is_no_comp_clause c.

Definition not_opening (c : string) : Prop := is_opening_clause c = false.

Definition is_pending_clause (c : string) : bool :=
  starts_with "Pending $" c.

Definition is_no_pending_clause (c : string) : bool :=
  starts_with "No pending; set $" c.

(** The clauses recording a bound that fired. *)
Definition is_ceiling_clause (c : string) : bool :=
  starts_with "Above comp ceiling $" c.

Definition is_floor_clause (c : string) : bool :=
  starts_with "Below comp floor $" c.

Definition is_std_cap_clause (c : string) : bool :=
  starts_with "Over standard cap $" c.

(** ** Unit-type keys *)

(** Keys are modelled as ASCII strings: a character is one byte, and
    bytes above 127 are left alone by every operation below. *)

(** Whitespace as Python's [\s] and [str.strip] see it, on ASCII. *)
Definition is_space (c : ascii) : bool :=
  let n := N_of_ascii c in
  ((9 <=? n) && (n <=? 13) || (28 <=? n) && (n <=? 32))%N.

Definition is_x (c : ascii) : bool := Ascii.eqb c "x".

(** Length of the leading whitespace run. *)
Fixpoint span_space (s : string) : nat :=
  match s with
  | String c s' => if is_space c then S (span_space s') else O
  | EmptyString => O
  end.

(** Length of the match of [\s*x\s*] at the start of [s], if there is
    one: both stars are greedy. *)
Fixpoint match_len (s : string) : option nat :=
  match s with
  | EmptyString => None
  | String c s' =>
      if is_x c then Some (S (span_space s'))
      else if is_space c then option_map S (match_len s')
      else None
  end.

(** [re.sub("\s*x\s*", "x", s)]: scan from the left; where the pattern
    matches, emit ["x"] and skip the match, otherwise copy one
    character.  [skip] counts the characters of the current match that
    are still to be passed over. *)
Fixpoint re_sub_x (skip : nat) (s : string) : string :=
  match s with
  | EmptyString => EmptyString
  | String c s' =>
      match skip with
      | S k => re_sub_x k s'
      | O =>
          match match_len s with
          | Some n => String "x" (re_sub_x (Nat.pred n) s')
          | None => String c (re_sub_x 0 s')
          end
      end
  end.

(** [.str.replace("\s*x\s*", "x", regex=True)] *)
Definition str_replace_x (s : string) : string := re_sub_x 0 s.

Fixpoint lstrip (s : string) : string :=
  match s with
  | String c s' => if is_space c then lstrip s' else s
  | EmptyString => EmptyString
  end.

Fixpoint rstrip (s : string) : string :=
  match s with
  | EmptyString => EmptyString
  | String c s' =>
      match rstrip s' with
      | EmptyString => if is_space c then EmptyString else String c EmptyString
      | r => String c r
      end
  end.

(** [.str.strip()] *)
Definition str_strip (s : string) : string := rstrip (lstrip s).

Definition lower_ascii (c : ascii) : ascii :=
  let n := N_of_ascii c in
  if ((65 <=? n) && (n <=? 90))%N then ascii_of_N (n + 32) else c.

(** [.str.lower()] *)
Fixpoint str_lower (s : string) : string :=
  match s with
  | EmptyString => EmptyString
  | String c s' => String (lower_ascii c) (str_lower s')
  end.

(** Tenant side:
    [df["unit_type"].str.replace("\s*x\s*", "x", regex=True).str.strip().str.lower()] *)
Definition tenant_unit_key (s : string) : string :=
  str_lower (str_strip (str_replace_x s)).

(** Competitor side:
    [cdf["unit_type"].astype(str).str.replace("\s*x\s*", "x", regex=True).str.strip().str.lower()] *)
Definition comp_unit_key (s : string) : string :=
  str_lower (str_strip (str_replace_x s)).

(** *** Reading keys *)

(** The substitution read from the right: an ["x"] swallows the
    whitespace on both of its sides.  [str_replace_x] is proved equal to
    it below; it is the form the proofs about keys work with. *)
Fixpoint tighten_x (s : string) : string :=
  match s with
  | EmptyString => EmptyString
  | String c s' =>
      let r := tighten_x s' in
      if is_x c then String "x" (lstrip r)
      else if is_space c && starts_with "x" r then r
      else String c r
  end.

(** [re.match("\s*x\s*", s) is not None] *)
Definition matches_x (s : string) : bool :=
  match match_len s with
  | Some _ => true
  | None => false
  end.

(** [s[n:]] *)
Fixpoint str_drop (n : nat) (s : string) : string :=
  match n, s with
  | O, _ => s
  | S n', String _ s' => str_drop n' s'
  | S _, EmptyString => EmptyString
  end.

(** Only whitespace. *)
Fixpoint all_space (s : string) : bool :=
  match s with
  | EmptyString => true
  | String c s' => is_space c && all_space s'
  end.



(** No capital ["X"]. *)
Fixpoint no_capital_x (s : string) : bool :=
  match s with
  | EmptyString => true
  | String c s' => negb (Ascii.eqb c "X") && no_capital_x s'
  end.

(** The tenant frame after the key column is rewritten. *)
Definition normalize_row (row : Row) : Row :=
  {| unit_type := tenant_unit_key (unit_type row);
     current_standard_rate := current_standard_rate row;
     current_tenant_rate := current_tenant_rate row;
     pending_tenant_rate := pending_tenant_rate row;
     months_since_last_increase := months_since_last_increase row |}.

(** ** The competitor index *)

Definition Qsum (l : list Q) : Q := fold_right Qplus 0 l.

(** Arithmetic mean of a non-empty list (exact; [np.mean] and pandas'
    [mean] return its float approximation). *)
Definition mean (l : list Q) : Q := Qsum l / inject_Z (Z.of_nat (length l)).

(** The numeric entries of a column. *)
Fixpoint numeric (l : list num) : list Q :=
  match l with
  | [] => []
  | NaN :: l' => numeric l'
  | Fin q :: l' => q :: numeric l'
  end.

(** The mean pandas takes of one group: missing rates are skipped, and
    a group without any numeric rate has a missing mean. *)
Definition group_mean (rates : list num) : num :=
  match numeric rates with
  | [] => NaN
  | l => Fin (mean l)
  end.

(** [cdf.groupby("unit_type")["comp_rate"]]: the rates of each key, in
    row order. *)
Fixpoint groupby (rows : list (string * num)) : gmap string (list num) :=
  match rows with
  | [] => ∅
  | (k, r) :: rest =>
      let g := groupby rest in
      <[k := r :: default [] (g !! k)]> g
  end.

(** [cdf.groupby("unit_type")["comp_rate"].mean().to_dict()] *)
Definition groupby_mean (rows : list (string * num)) : gmap string num :=
  group_mean <$> groupby rows.

(** The rates of the rows filed under key [u], in row order. *)
Fixpoint rates_of (u : string) (rows : list (string * num)) : list num :=
  match rows with
  | [] => []
  | (k, r) :: rest =>
      if String.eqb k u then r :: rates_of u rest else rates_of u rest
  end.

(** The manual table with its key column rewritten. *)
Definition keyed (rows : list (string * num)) : list (string * num) :=
  map (fun '(u, r) => (comp_unit_key u, r)) rows.

(** The manual block.  [cdf] is [None] when no file was uploaded or when
    reading it raised (the [except] leaves [comp_by_unit] empty). *)
Definition manual_index (cdf : option (list (string * num))) : gmap string num :=
  match cdf with
  | None => ∅
  | Some rows => groupby_mean (keyed rows)
  end.

(** The scrape block: [scraped] holds the prices found at each URL
    (empty for a failed fetch). *)
Definition global_avg (scraped : list (list Q)) : num :=
  match concat scraped with
  | [] => NaN
  | all_prices => Fin (mean all_prices)
  end.

(** [for ut in df["unit_type"].unique(): if ut not in comp_by_unit: ...] *)
Fixpoint fill_missing (units : list string) (g : num) (m : gmap string num)
    : gmap string num :=
  match units with
  | [] => m
  | ut :: rest =>
      fill_missing rest g
        (match m !! ut with
         | Some _ => m
         | None => <[ut := g]> m
         end)
  end.

Definition build_comp_by_unit (cdf : option (list (string * num)))
    (scraped : list (list Q)) (df : list Row) : gmap string num :=
  fill_missing (map unit_type df) (global_avg scraped) (manual_index cdf).

(** ** Scraping *)

Definition is_digit (c : ascii) : bool :=
  let n := N_of_ascii c in ((48 <=? n) && (n <=? 57))%N.

Definition digit_val (c : ascii) : Z := (Z.of_N (N_of_ascii c) - 48)%Z.

(** Length of the leading run of digits. *)
Fixpoint span_digits (s : string) : nat :=
  match s with
  | String c s' => if is_digit c then S (span_digits s') else O
  | EmptyString => O
  end.

(** The number written by the first [n] characters, after [acc]. *)
Fixpoint digits_to_Z (acc : Z) (n : nat) (s : string) : Z :=
  match n, s with
  | S n', String c s' => digits_to_Z (10 * acc + digit_val c) n' s'
  | _, _ => acc
  end.

(** A match of [\$\s*([0-9]+(?:\.[0-9]{1,2})?)] at the start of [s]:
    the [float] of the captured group and the length of the match.  All
    quantifiers are greedy; the fraction is taken only when a digit
    follows the point, and then one or two digits of it. *)
Definition match_price (s : string) : option (Q * nat) :=
  match s with
  | EmptyString => None
  | String c r =>
      if negb (Ascii.eqb c "$") then None else
      let w := span_space r in
      let r1 := str_drop w r in
      let n := span_digits r1 in
      if (n =? 0)%nat then None else
      let ip := digits_to_Z 0 n r1 in
      match str_drop n r1 with
      | String d r3 =>
          let k := Nat.min (span_digits r3) 2 in
          if Ascii.eqb d "." && negb (k =? 0)%nat
          then Some (inject_Z ip
                     + (if (k =? 1)%nat then digits_to_Z 0 k r3 # 10
                        else digits_to_Z 0 k r3 # 100),
                     (1 + w + n + 1 + k)%nat)
          else Some (inject_Z ip, (1 + w + n)%nat)
      | EmptyString => Some (inject_Z ip, (1 + w + n)%nat)
      end
  end.

(** [[float(x) for x in re.findall(..., text)]]: scan from the left;
    [skip] counts the characters of the current match still to pass. *)
Fixpoint findall_prices (skip : nat) (s : string) : list Q :=
  match s with
  | EmptyString => []
  | String c s' =>
      match skip with
      | S k => findall_prices k s'
      | O =>
          match match_price s with
          | Some (q, n) => q :: findall_prices (Nat.pred n) s'
          | None => findall_prices 0 s'
          end
      end
  end.

Definition extract_prices (text : string) : list Q := findall_prices 0 text.

(** Number of dollar signs in a text. *)
Fixpoint count_dollar (s : string) : nat :=
  match s with
  | EmptyString => O
  | String c s' => ((if Ascii.eqb c "$" then 1 else 0) + count_dollar s')%nat
  end.

(** A non-negative amount with at most two decimals. *)
Definition cents (q : Q) : Prop := exists z : Z, (0 <= z)%Z /\ q == z # 100.

Section Scrape.

(** The outside world: the rendered text of the page behind a URL, or
    [None] when the request, the status check or the parsing raised. *)
Variable fetch : string -> option string.

(** [scrape_prices(url)]: any exception gives the empty list. *)
Definition scrape_prices (url : string) : list Q :=
  match fetch url with
  | Some text => extract_prices text
  | None => []
  end.

(** The scrape block: [all_prices] after the loop over [urls]. *)
Definition scrape_all (urls : list string) : list (list Q) :=
  map scrape_prices urls.

End Scrape.

(** ** Column guessing *)

(** [sub in s] *)
Fixpoint contains (sub s : string) : bool :=
  starts_with sub s ||
  match s with
  | EmptyString => false
  | String _ s' => contains sub s'
  end.

(** [guess(sub)] over the columns [cols] of the uploaded table: the
    first column whose lower-cased name contains the lower-cased
    keyword. *)
Definition guess (cols : list string) (sub : string) : option string :=
  let sub := str_lower sub in
  List.find (fun c => contains sub (str_lower c)) cols.

(** [cols.index(x)]; [None] stands for the [ValueError] of a missing
    element. *)
Fixpoint index_of (x : string) (cols : list string) : option nat :=
  match cols with
  | [] => None
  | c :: rest =>
      if String.eqb c x then Some O else option_map S (index_of x rest)
  end.

(** [x in cols] for the value [guess] returned ([None] is in no list of
    names). *)
Definition guess_in (g : option string) (cols : list string) : bool :=
  match g with
  | Some c => existsb (String.eqb c) cols
  | None => false
  end.

(** The [index=] argument of each column [selectbox]:
    [(cols.index(guess(sub)) + 1) if guess(sub) in cols else 0]. *)
Definition default_index (cols : list string) (sub : string) : result nat :=
  if guess_in (guess cols sub) cols then
    match guess cols sub with
    | Some c =>
        match index_of c cols with
        | Some i => Ok (i + 1)%nat
        | None => Raise ValueError
        end
    | None => Raise ValueError
    end
  else Ok O.

(** The options of each column [selectbox]: [["<none>"] + cols]. *)
Definition options (cols : list string) : list string := "<none>" :: cols.

(** ** The URL box *)

(** The ASCII line boundaries of [str.splitlines]. *)
Definition is_linebreak (c : ascii) : bool :=
  let n := N_of_ascii c in
  ((10 <=? n) && (n <=? 13) || (28 <=? n) && (n <=? 30))%N.

(** [s.splitlines()]: a carriage return followed by a line feed is one
    boundary, and a final boundary opens no further line. *)
Fixpoint splitlines (s : string) : list string :=
  match s with
  | EmptyString => []
  | String c s' =>
      let ls := splitlines s' in
      if Ascii.eqb c "013" && starts_with (String "010" EmptyString) s' then ls
      else if is_linebreak c then EmptyString :: ls
      else match ls with
           | [] => [String c EmptyString]
           | l :: ls' => String c l :: ls'
           end
  end.

(** [[u.strip() for u in comp_urls_text.splitlines() if u.strip()]] *)
Definition parse_urls (comp_urls_text : string) : list string :=
  List.filter (fun u => negb (String.eqb u EmptyString))
    (map str_strip (splitlines comp_urls_text)).

Fixpoint no_linebreak (s : string) : bool :=
  match s with
  | EmptyString => true
  | String c s' => negb (is_linebreak c) && no_linebreak s'
  end.

(** ** The whole run *)

(** From the mapped tenant table to the output table [out]. *)
Definition run (p : Policy) (cdf : option (list (string * num)))
    (scraped : list (list Q)) (raw : list Row)
    : result (list (Row * Suggestion)) :=
  let df := map normalize_row raw in
  let comp_by_unit := build_comp_by_unit cdf scraped df in
  ss ← apply_suggest p comp_by_unit df;
  Ok (combine df ss).

(** The run as the script performs it, from the sidebar's URL box and
    the outside world [fetch]. *)
Definition app (p : Policy) (cdf : option (list (string * num)))
    (comp_urls_text : string) (fetch : string -> option string)
    (raw : list Row) : result (list (Row * Suggestion)) :=
  let urls := parse_urls comp_urls_text in
  run p cdf (scrape_all fetch urls) raw.

(** ** Sample inputs *)

(** The sidebar's default settings. *)
Definition policy_default : Policy :=
  {| default_increase_pct := 17 # 100; cadence_months := 10;
     min_inc := 8 # 100; max_inc := 18 # 100;
     band_vs_comp := 3 # 100; band_vs_standard := 5 # 100; round_step := 5 |}.

(** Concrete policies and rows used by the examples below. *)
Definition policy_consistent : Policy :=
  {| default_increase_pct := 1 # 4; cadence_months := 10;
     min_inc := 1 # 8; max_inc := 1 # 4;
     band_vs_comp := 1 # 4; band_vs_standard := 0; round_step := 5 |}.

Definition policy_inverted : Policy :=
  {| default_increase_pct := 1 # 4; cadence_months := 10;
     min_inc := 1 # 2; max_inc := 1 # 4;
     band_vs_comp := 0; band_vs_standard := 0; round_step := 5 |}.

Definition policy_high_min : Policy :=
  {| default_increase_pct := 1 # 8; cadence_months := 10;
     min_inc := 1 # 4; max_inc := 1 # 2;
     band_vs_comp := 0; band_vs_standard := 0; round_step := 5 |}.

Definition row_1000 : Row :=
  {| unit_type := "10x10";
     current_standard_rate := NaN;
     current_tenant_rate := Fin 1000;
     pending_tenant_rate := NaN;
     months_since_last_increase := NaN |}.

Definition row_nan_rate : Row :=
  {| unit_type := "10x10";
     current_standard_rate := Fin 1200;
     current_tenant_rate := NaN;
     pending_tenant_rate := NaN;
     months_since_last_increase := NaN |}.

Definition row_recent : Row :=
  {| unit_type := "10x10";
     current_standard_rate := NaN;
     current_tenant_rate := Fin 1000;
     pending_tenant_rate := Fin 1100;
     months_since_last_increase := Fin 3 |}.

(** A row with a standard rate below its tenant rate. *)
Definition row_over_standard : Row :=
  {| unit_type := "10x10";
     current_standard_rate := Fin 900;
     current_tenant_rate := Fin 1000;
     pending_tenant_rate := Fin 950;
     months_since_last_increase := Fin 12 |}.

(** A manual competitor table and the prices scraped from two URLs,
    the second of which failed. *)
Definition manual_sample : list (string * num) :=
  [("10 x 10", Fin 100); ("5x5", NaN); ("10x10 ", Fin 200)].

Definition scraped_sample : list (list Q) := [[90; 110]; []].

(** A page text with three price tags. *)
Definition page_sample : string :=
  "10x10 from $ 129.99/mo, 5x5 $45 or $60.5 today; call $x".

(** A world in which one URL answers and every other one fails. *)
Definition fetch_sample (url : string) : option string :=
  if String.eqb url "https://a.example/rates" then Some page_sample else None.

(** A competitor index with one manual average. *)
Definition comp_800 : gmap string num := {[ "10x10" := Fin 800 ]}.

(** A row and a competitor average that are both negative. *)
Definition row_negative : Row :=
  {| unit_type := "10x10";
     current_standard_rate := NaN;
     current_tenant_rate := Fin (-100);
     pending_tenant_rate := NaN;
     months_since_last_increase := NaN |}.

Definition comp_negative : gmap string num := {[ "10x10" := Fin (-100) ]}.

(** A tenant row of a unit type whose only manual competitor row has a
    blank rate. *)
Definition row_5x5 : Row :=
  {| unit_type := "5x5";
     current_standard_rate := NaN;
     current_tenant_rate := Fin 50;
     pending_tenant_rate := NaN;
     months_since_last_increase := NaN |}.

Definition manual_blank : list (string * num) := [("5x5", NaN)].

(** * Properties *)

(** ** Comparisons *)

Lemma Qltb_true (a b : Q) : Qltb a b = true <-> a < b.
Proof.
  unfold Qltb. rewrite negb_true_iff, <- not_true_iff_false, Qle_bool_iff.
  split; [apply Qnot_le_lt | apply Qlt_not_le].
Qed.

Lemma Qltb_false (a b : Q) : Qltb a b = false <-> b <= a.
Proof.
  unfold Qltb. rewrite negb_false_iff, Qle_bool_iff. reflexivity.
Qed.

Ltac qcmp :=
  repeat match goal with
  | H : Qltb _ _ = true |- _ => apply Qltb_true in H
  | H : Qltb _ _ = false |- _ => apply Qltb_false in H
  end.

(** ** The rounder *)

Lemma floor_bounds (q : Q) :
  inject_Z (Qfloor q) <= q /\ q < inject_Z (Qfloor q) + 1.
Proof.
  split; [apply Qfloor_le|].
  pose proof (Qlt_floor q) as H. rewrite inject_Z_plus in H. exact H.
Qed.

Lemma round_half_even_cases (q : Q) :
  let f := Qfloor q in
  let k := round_half_even q in
  (k = f /\ q - inject_Z f < 1 # 2) \/
  (k = (f + 1)%Z /\ 1 # 2 < q - inject_Z f) \/
  (q - inject_Z f == 1 # 2 /\ Z.even k = true /\ (k = f \/ k = (f + 1)%Z)).
Proof.
  intros f k. subst f k. unfold round_half_even.
  destruct (Qltb _ _) eqn:E1; [left; qcmp; auto|].
  destruct (Qltb (1 # 2) _) eqn:E2; [right; left; qcmp; auto|].
  right; right. qcmp. split; [lra|].
  destruct (Z.even (Qfloor q)) eqn:E3; [auto|].
  split; [|auto]. rewrite Z.even_add, E3. reflexivity.
Qed.

Lemma round_half_even_close (q : Q) :
  Qabs (inject_Z (round_half_even q) - q) <= 1 # 2.
Proof.
  pose proof (floor_bounds q) as [Hlo Hhi].
  apply Qabs_Qle_condition.
  destruct (round_half_even_cases q) as [[-> H]|[[-> H]|[H [_ [-> | ->]]]]];
    rewrite ?inject_Z_plus; change (inject_Z 1) with 1; split; lra.
Qed.

Ltac qabs :=
  repeat match goal with
  | |- context [Qabs ?x] => pattern (Qabs x); apply Qabs_case; intro
  end.

Lemma Z_gap (k k' : Z) :
  k' <> k -> inject_Z k' <= inject_Z k - 1 \/ inject_Z k + 1 <= inject_Z k'.
Proof.
  intros Hne.
  destruct (Z_lt_le_dec k' k) as [H|H].
  - left. assert (k' <= k - 1)%Z as H' by lia.
    rewrite Zle_Qle in H'. unfold Zminus in H'.
    rewrite inject_Z_plus in H'. exact H'.
  - right. assert (k + 1 <= k')%Z as H' by lia.
    rewrite Zle_Qle, inject_Z_plus in H'. exact H'.
Qed.

Lemma round_half_even_nearest (q : Q) (k' : Z) :
  Qabs (inject_Z (round_half_even q) - q) <= Qabs (inject_Z k' - q).
Proof.
  destruct (Z.eq_dec k' (round_half_even q)) as [->|Hne]; [apply Qle_refl|].
  pose proof (round_half_even_close q) as Hc.
  apply Qabs_Qle_condition in Hc.
  destruct (Z_gap _ _ Hne); qabs; lra.
Qed.

Lemma round_half_even_tie (q : Q) (k' : Z) :
  k' <> round_half_even q ->
  Qabs (inject_Z k' - q) == Qabs (inject_Z (round_half_even q) - q) ->
  Z.even (round_half_even q) = true.
Proof.
  intros Hne Heq.
  pose proof (floor_bounds q) as [Hlo Hhi].
  destruct (round_half_even_cases q) as [[E H]|[[E H]|[_ [H _]]]]; [| |exact H];
    exfalso; apply Z_gap in Hne; rewrite E in *;
    rewrite ?inject_Z_plus in *; change (inject_Z 1) with 1 in *;
    revert Heq; qabs; destruct Hne; lra.
Qed.

Lemma scale_step (v : Q) (s k : Z) :
  (0 < s)%Z ->
  Qabs (inject_Z (k * s) - v) ==
  Qabs (inject_Z k - v / inject_Z s) * inject_Z s.
Proof.
  intros Hs.
  assert (0 < inject_Z s) as Hs' by (rewrite Zlt_Qlt in Hs; exact Hs).
  rewrite <- (Qabs_pos (inject_Z s)) at 2 by lra.
  rewrite <- Qabs_Qmult, inject_Z_mult.
  apply Qabs_wd. field. lra.
Qed.

Lemma round_to_step_fin (v : Q) (s : Z) :
  s <> 0%Z ->
  round_to_step (Fin v) s = Ok (round_half_even (v / inject_Z s) * s)%Z.
Proof.
  intros Hs. unfold round_to_step, fdiv_int.
  destruct (s =? 0)%Z eqn:E; [apply Z.eqb_eq in E; contradiction|reflexivity].
Qed.

Lemma Qltb_wd (a a' b b' : Q) : a == a' -> b == b' -> Qltb a b = Qltb a' b'.
Proof.
  intros Ha Hb. destruct (Qltb a b) eqn:E; symmetry.
  - apply Qltb_true in E. apply Qltb_true. lra.
  - apply Qltb_false in E. apply Qltb_false. lra.
Qed.

Lemma round_half_even_wd (q q' : Q) :
  q == q' -> round_half_even q = round_half_even q'.
Proof.
  intros H. unfold round_half_even.
  rewrite (Qfloor_comp q q' H).
  rewrite (Qltb_wd (q - inject_Z (Qfloor q')) (q' - inject_Z (Qfloor q'))
             (1 # 2) (1 # 2)) by lra.
  rewrite (Qltb_wd (1 # 2) (1 # 2) (q - inject_Z (Qfloor q'))
             (q' - inject_Z (Qfloor q'))) by lra.
  reflexivity.
Qed.

(** ** The rounded quotient *)

Lemma round_half_even_unique (q : Q) (k : Z) :
  Qabs (inject_Z k - q) < 1 # 2 -> round_half_even q = k.
Proof.
  intros Hk.
  destruct (Z.eq_dec (round_half_even q) k) as [E|Hne]; [exact E|exfalso].
  pose proof (round_half_even_close q) as Hc.
  apply Qabs_Qle_condition in Hc.
  apply Z_gap in Hne. revert Hk. qabs; destruct Hne; lra.
Qed.

Lemma Qabs_inject_Z_ge_1 (d : Z) : d <> 0%Z -> 1 <= Qabs (inject_Z d).
Proof.
  intros Hd. unfold inject_Z. rewrite <- Zabs_Qabs.
  change 1 with (inject_Z 1). fold (inject_Z (Z.abs d)).
  rewrite <- Zle_Qle. lia.
Qed.

Lemma Qpower_2_neg (p : positive) :
  2 ^ (Zneg p) == / inject_Z (2 ^ Zpos p).
Proof.
  change (2 ^ Z.neg p) with (/ (2 ^ Z.pos p)).
  rewrite Zpower_Qpower by lia. reflexivity.
Qed.

Lemma Qpower_2_nonneg (e : Z) :
  (0 <= e)%Z -> 2 ^ e == inject_Z (2 ^ e).
Proof. intros He. rewrite Zpower_Qpower by exact He. reflexivity. Qed.

(** A binary64 value of magnitude at most twice [binary64_safe] is a
    multiple of [1 / G] for an even [G], and has fewer than 53 bits
    above it. *)
Lemma binary64_grid (v : Q) :
  is_binary64 v ->
  Qabs v <= 2 * binary64_safe ->
  exists G M : Z,
    (0 < G)%Z /\ Z.even G = true /\
    v * inject_Z G == inject_Z M /\
    Qabs v * inject_Z G < inject_Z (2 ^ 53).
Proof.
  intros (m & e & Hm & He & Hv) Hsafe.
  destruct e as [|p|p].
  - exists 2%Z, (2 * m)%Z. split; [lia|]. split; [reflexivity|].
    change (2 ^ 0) with 1 in Hv. split.
    + rewrite Hv, inject_Z_mult. change (inject_Z 2) with 2. lra.
    + unfold binary64_safe in Hsafe.
      assert (2 * inject_Z (2 ^ 49) * inject_Z 2 < inject_Z (2 ^ 53)) by reflexivity.
      change (inject_Z 2) with 2 in *.
      pose proof (Qabs_nonneg v). lra.
  - exists 2%Z, (2 * (m * 2 ^ Z.pos p))%Z. split; [lia|]. split; [reflexivity|].
    split.
    + rewrite Hv, Qpower_2_nonneg by lia.
      rewrite !inject_Z_mult. change (inject_Z 2) with 2. lra.
    + unfold binary64_safe in Hsafe.
      assert (2 * inject_Z (2 ^ 49) * inject_Z 2 < inject_Z (2 ^ 53)) by reflexivity.
      change (inject_Z 2) with 2 in *.
      pose proof (Qabs_nonneg v). lra.
  - exists (2 ^ Z.pos p)%Z, m.
    assert (0 < 2 ^ Z.pos p)%Z as HG by (apply Z.pow_pos_nonneg; lia).
    assert (0 < inject_Z (2 ^ Z.pos p)) as HG'
      by (change 0 with (inject_Z 0); rewrite <- Zlt_Qlt; exact HG).
    split; [exact HG|]. split.
    { rewrite Z.even_pow by lia. reflexivity. }
    assert (v * inject_Z (2 ^ Z.pos p) == inject_Z m) as Hvm.
    { rewrite Hv, Qpower_2_neg. field. lra. }
    split; [exact Hvm|].
    rewrite <- (Qabs_pos (inject_Z (2 ^ Z.pos p))) by lra.
    rewrite <- Qabs_Qmult, Hvm. unfold inject_Z at 1.
    rewrite <- Zabs_Qabs. fold (inject_Z (Z.abs m)).
    rewrite <- Zlt_Qlt. exact Hm.
Qed.

(** The exact quotient of a binary64 value in range by a positive
    integer is either a given half-integer or further from it than a
    correctly rounded float is from the quotient. *)
Lemma half_integer_gap (v : Q) (s j : Z) :
  is_binary64 v ->
  Qabs v <= 2 * binary64_safe ->
  (0 < s)%Z ->
  let q := v / inject_Z s in
  let h := inject_Z j + (1 # 2) in
  ~ q == h ->
  Qabs q * 2 ^ (-53) < Qabs (h - q).
Proof.
  intros Hb Hsafe Hs q h Hne.
  destruct (binary64_grid v Hb Hsafe) as (G & M & HG & Heven & HM & Hbits).
  assert (0 < inject_Z s) as Hs' by (rewrite Zlt_Qlt in Hs; exact Hs).
  assert (0 < inject_Z G) as HG' by (rewrite Zlt_Qlt in HG; exact HG).
  assert (exists G2 : Z, G = (2 * G2)%Z) as [G2 ->].
  { apply Z.even_spec in Heven. destruct Heven as [G2 ->]. eauto. }
  set (D := ((2 * j + 1) * s * G2 - M)%Z).
  assert ((h - q) * (inject_Z s * inject_Z (2 * G2)) == inject_Z D) as HD.
  { unfold D, Zminus. rewrite inject_Z_plus, inject_Z_opp, !inject_Z_mult,
      inject_Z_plus, inject_Z_mult, <- HM.
    subst h q. rewrite !inject_Z_mult.
    change (inject_Z 2) with 2. change (inject_Z 1) with 1. field. lra. }
  assert (D <> 0%Z) as HD0.
  { intros E. rewrite E in HD. apply Hne.
    assert (0 < inject_Z s * inject_Z (2 * G2)) as Hpos
      by (apply Qmult_lt_0_compat; assumption).
    assert (h - q == 0) as H0.
    { destruct (Qmult_integral _ _ HD) as [H|H]; [exact H|lra]. }
    lra. }
  pose proof (Qabs_inject_Z_ge_1 D HD0) as H1.
  rewrite <- HD, Qabs_Qmult in H1.
  rewrite (Qabs_pos (inject_Z s * inject_Z (2 * G2))) in H1
    by (apply Qlt_le_weak, Qmult_lt_0_compat; assumption).
  assert (Qabs q * inject_Z s == Qabs v) as Hqv.
  { subst q. rewrite <- (Qabs_pos (inject_Z s)) at 2 by lra.
    rewrite <- Qabs_Qmult. apply Qabs_wd. field. lra. }
  assert (2 ^ (-53) * inject_Z (2 ^ 53) == 1) as Hu by reflexivity.
  set (u := 2 ^ (-53)) in *.
  assert (0 < u) as Hupos by reflexivity.
  assert (Qabs q * u * (inject_Z s * inject_Z (2 * G2)) < 1) as H2.
  { assert (Qabs q * u * (inject_Z s * inject_Z (2 * G2))
            == Qabs v * inject_Z (2 * G2) * u) as ->
      by (rewrite <- Hqv; ring).
    assert (Qabs v * inject_Z (2 * G2) * u < inject_Z (2 ^ 53) * u) as H
      by (apply Qmult_lt_compat_r; assumption).
    rewrite (Qmult_comm (inject_Z (2 ^ 53)) u), Hu in H. exact H. }
  assert (0 < inject_Z s * inject_Z (2 * G2)) as Hpos
    by (apply Qmult_lt_0_compat; assumption).
  apply (Qmult_lt_r _ _ (inject_Z s * inject_Z (2 * G2))); [exact Hpos|].
  eapply Qlt_le_trans; [exact H2|exact H1].
Qed.

Lemma half_integer_binary64 (j : Z) :
  Qabs (inject_Z j + (1 # 2)) <= 2 * binary64_safe ->
  is_binary64 (inject_Z j + (1 # 2)).
Proof.
  intros Hsafe. exists (2 * j + 1)%Z, (-1)%Z.
  split; [|split; [lia|]].
  - unfold binary64_safe in Hsafe.
    apply Qabs_Qle_condition in Hsafe. destruct Hsafe as [Hlo Hhi].
    assert (2 * inject_Z (2 ^ 49) == inject_Z (2 ^ 50)) as E by reflexivity.
    rewrite E in Hlo, Hhi.
    assert (inject_Z j <= inject_Z (2 ^ 50)) as H1 by lra.
    assert (inject_Z (- 2 ^ 50 - 1) <= inject_Z j) as H2.
    { unfold Zminus. rewrite inject_Z_plus, !inject_Z_opp.
      change (inject_Z 1) with 1. lra. }
    rewrite <- Zle_Qle in H1, H2. lia.
  - rewrite inject_Z_plus, inject_Z_mult.
    change (2 ^ (-1)) with (1 # 2). change (inject_Z 2) with 2.
    change (inject_Z 1) with 1. ring.
Qed.

(** Rounding the float quotient gives the same integer as rounding the
    exact quotient, for a binary64 value of magnitude at most twice
    [binary64_safe]. *)
Lemma binary64_quotient_rounds_alike (v : Q) (s : Z) (f : Q) :
  is_binary64 v ->
  Qabs v <= 2 * binary64_safe ->
  (0 < s)%Z ->
  binary64_result (v / inject_Z s) f ->
  round_half_even f = round_half_even (v / inject_Z s).
Proof.
  intros Hb Hsafe Hs (Hexact & Hnormal & Hsub).
  set (q := v / inject_Z s) in *.
  assert (1 <= inject_Z s) as Hs'.
  { change 1 with (inject_Z 1). rewrite <- Zle_Qle. lia. }
  assert (Qabs q <= Qabs v) as Hqv.
  { assert (Qabs q * inject_Z s == Qabs v) as E.
    { subst q. rewrite <- (Qabs_pos (inject_Z s)) at 2 by lra.
      rewrite <- Qabs_Qmult. apply Qabs_wd. field. lra. }
    pose proof (Qabs_nonneg q). rewrite <- E. nra. }
  assert (2 ^ (-1022) <= 1 # 8) as Hc1 by (vm_compute; discriminate).
  assert (2 ^ (-1075) <= 1 # 8) as Hc2 by (vm_compute; discriminate).
  destruct (Qlt_le_dec (Qabs q) (2 ^ (-1022))) as [Htiny|Hbig].
  { (* below the normal range both round to zero *)
    specialize (Hsub Htiny).
    rewrite (round_half_even_unique q 0), (round_half_even_unique f 0);
      [reflexivity| |].
    - revert Hsub Htiny. set (a := 2 ^ (-1022)) in *. set (b := 2 ^ (-1075)) in *.
      change (inject_Z 0) with 0. qabs; lra.
    - revert Htiny. set (a := 2 ^ (-1022)) in *. change (inject_Z 0) with 0.
      qabs; lra. }
  specialize (Hnormal Hbig).
  pose proof (floor_bounds q) as [Hlo Hhi].
  assert (forall j : Z, ~ q == inject_Z j + (1 # 2) ->
                        Qabs (f - q) < Qabs (inject_Z j + (1 # 2) - q)) as Hgap.
  { intros j Hne. eapply Qle_lt_trans; [exact Hnormal|].
    apply (half_integer_gap v s j Hb Hsafe Hs). exact Hne. }
  destruct (round_half_even_cases q) as [[E H]|[[E H]|[H _]]].
  - (* below the half *)
    cbv zeta in E. rewrite E. apply round_half_even_unique.
    pose proof (Hgap (Qfloor q)) as Hup.
    pose proof (Hgap (Qfloor q - 1)%Z) as Hdown.
    unfold Zminus in Hdown. rewrite inject_Z_plus, inject_Z_opp in Hdown.
    change (inject_Z 1) with 1 in Hdown.
    assert (~ q == inject_Z (Qfloor q) + (1 # 2)) as N1 by lra.
    assert (~ q == inject_Z (Qfloor q) + - (1) + (1 # 2)) as N2 by lra.
    specialize (Hup N1). specialize (Hdown N2).
    revert Hup Hdown. qabs; lra.
  - (* above the half *)
    cbv zeta in E. rewrite E. apply round_half_even_unique.
    rewrite inject_Z_plus. change (inject_Z 1) with 1.
    pose proof (Hgap (Qfloor q)) as Hdown.
    pose proof (Hgap (Qfloor q + 1)%Z) as Hup.
    rewrite inject_Z_plus in Hup. change (inject_Z 1) with 1 in Hup.
    assert (~ q == inject_Z (Qfloor q) + (1 # 2)) as N1 by lra.
    assert (~ q == inject_Z (Qfloor q) + 1 + (1 # 2)) as N2 by lra.
    specialize (Hup N2). specialize (Hdown N1).
    revert Hup Hdown. qabs; lra.
  - (* a tie is a binary64 value *)
    assert (q == inject_Z (Qfloor q) + (1 # 2)) as Hq by lra.
    apply round_half_even_wd. apply Hexact.
    assert (is_binary64 (inject_Z (Qfloor q) + (1 # 2))) as (m & e & Hm & He & Hv).
    { apply half_integer_binary64. rewrite <- Hq. lra. }
    exists m, e. rewrite Hq. auto.
Qed.

(** C4 (amended): for every finite value [v] of magnitude at most
    [binary64_safe] and every positive integer step [s] up to the same
    bound, [round_to_step v s] returns a multiple [k * s] of the step
    that is nearest to [v], hence at most [s / 2] away from it; when [v]
    is exactly halfway between two multiples, the one with the even
    quotient [k] is returned (ties go to even, not away from zero).
    The script rounds the float quotient [val / step] rather than the
    exact one: for a binary64 [v] in that range every float [f] that
    IEEE 754 allows as the quotient rounds to the same [k].  Beyond the
    range this fails: the float quotient can land on the other side of a
    half-integer. *)
Theorem round_to_step_nearest_ties_even (v : Q) (s : Z) :
  (0 < s)%Z ->
  inject_Z s <= binary64_safe ->
  Qabs v <= binary64_safe ->
  exists k : Z,
    round_to_step (Fin v) s = Ok (k * s)%Z /\
    Qabs (inject_Z (k * s) - v) <= inject_Z s / 2 /\
    (forall k' : Z,
        Qabs (inject_Z (k * s) - v) <= Qabs (inject_Z (k' * s) - v)) /\
    (forall k' : Z,
        k' <> k ->
        Qabs (inject_Z (k' * s) - v) == Qabs (inject_Z (k * s) - v) ->
        Z.even k = true) /\
    (is_binary64 v ->
     forall f : Q,
       binary64_result (v / inject_Z s) f -> round_half_even f = k).
Proof.
  intros Hs _ Hv. exists (round_half_even (v / inject_Z s)).
  assert (0 < inject_Z s) as Hs' by (rewrite Zlt_Qlt in Hs; exact Hs).
  split; [apply round_to_step_fin; lia|].
  split; [|split; [|split]].
  - rewrite scale_step by exact Hs.
    pose proof (round_half_even_close (v / inject_Z s)) as Hc.
    apply (Qmult_le_compat_r _ _ (inject_Z s)) in Hc; [|lra].
    eapply Qle_trans; [exact Hc|]. apply Qle_lteq; right. field.
  - intros k'. rewrite !scale_step by exact Hs.
    apply Qmult_le_compat_r; [apply round_half_even_nearest|lra].
  - intros k' Hne Heq. rewrite !scale_step in Heq by exact Hs.
    apply Qmult_inj_r in Heq; [|lra].
    exact (round_half_even_tie _ _ Hne Heq).
  - intros Hb f Hf. apply binary64_quotient_rounds_alike; try assumption.
    pose proof (Qabs_nonneg v). lra.
Qed.

Lemma round_to_step_nearest_ties_even_witness :
  exists k : Z,
    round_to_step (Fin (305 # 2)) 5 = Ok (k * 5)%Z /\
    Qabs (inject_Z (k * 5) - (305 # 2)) <= inject_Z 5 / 2 /\
    (forall k' : Z,
        Qabs (inject_Z (k * 5) - (305 # 2)) <= Qabs (inject_Z (k' * 5) - (305 # 2))) /\
    (forall k' : Z,
        k' <> k ->
        Qabs (inject_Z (k' * 5) - (305 # 2)) == Qabs (inject_Z (k * 5) - (305 # 2)) ->
        Z.even k = true) /\
    (is_binary64 (305 # 2) ->
     forall f : Q,
       binary64_result ((305 # 2) / inject_Z 5) f -> round_half_even f = k).
Proof.
  apply (round_to_step_nearest_ties_even (305 # 2) 5);
    [reflexivity|discriminate|discriminate].
Defined.

(** C4, counterexample: with step 5 the value 152.5 is rounded to 150,
    not to 155. *)
Lemma round_to_step_tie_not_away :
  round_to_step (Fin (305 # 2)) 5 = Ok 150%Z /\
  round_to_step (Fin (305 # 2)) 5 <> Ok 155%Z.
Proof. split; [reflexivity|discriminate]. Qed.

(** ** The policy envelope *)

Ltac fcases :=
  repeat match goal with
  | |- context [Qltb ?a ?b] => destruct (Qltb a b) eqn:?
  end; qcmp.

Lemma envelope_fin (p : Policy) (cur t : Q) :
  exists e : Q,
    envelope p (Fin cur) (Fin t) = Fin e /\
    cur * (1 + min_inc p) <= e /\
    (cur * (1 + min_inc p) <= cur * (1 + max_inc p) ->
     e <= cur * (1 + max_inc p)) /\
    (cur * (1 + max_inc p) < cur * (1 + min_inc p) ->
     e = cur * (1 + min_inc p)).
Proof.
  unfold envelope, py_max, py_min, flt, fgt, fmul.
  fcases; eexists; (split; [reflexivity|]); repeat split; intros; try lra.
Qed.

Lemma envelope_inverted (p : Policy) (cur : Q) (target : num) :
  0 < cur -> max_inc p < min_inc p ->
  envelope p (Fin cur) target = Fin (cur * (1 + min_inc p)).
Proof.
  intros Hcur Hinv.
  assert (cur * (1 + max_inc p) < cur * (1 + min_inc p)) by nra.
  destruct target as [|t]; unfold envelope, py_max, py_min, flt, fgt, fmul;
    fcases; try reflexivity; lra.
Qed.

(** C3 (amended): for every policy with [min_inc > max_inc] and every
    row with a positive numeric [current_tenant_rate], the policy clamp
    produces the min-bound value [cur * (1 + min_inc)], whatever the
    target it is applied to: the lower clamp is the outer [max] of the
    clamp expression, so it is applied last and dominates. *)
Theorem inverted_policy_min_bound_wins (p : Policy) (row : Row) (cur : Q) :
  current_tenant_rate row = Fin cur ->
  0 < cur ->
  max_inc p < min_inc p ->
  envelope_target p row = Fin (cur * (1 + min_inc p)) /\
  forall target : num,
    envelope p (Fin cur) target = Fin (cur * (1 + min_inc p)).
Proof.
  intros Hrow Hcur Hinv. unfold envelope_target. rewrite Hrow.
  split; [|intros target]; apply envelope_inverted; assumption.
Qed.

Lemma inverted_policy_min_bound_wins_witness :
  envelope_target policy_inverted row_1000
  = Fin (1000 * (1 + min_inc policy_inverted)) /\
  forall target : num,
    envelope policy_inverted (Fin 1000) target
    = Fin (1000 * (1 + min_inc policy_inverted)).
Proof.
  apply (inverted_policy_min_bound_wins policy_inverted row_1000 1000);
    reflexivity.
Defined.

(** C3, counterexample: with min 50 %, max 25 % and a rate of 1000 the
    clamp yields 1500, which is not the max-bound value 1250. *)
Lemma inverted_policy_not_max_bound :
  max_inc policy_inverted < min_inc policy_inverted /\
  num_eq (envelope_target policy_inverted row_1000) (Fin 1500) /\
  ~ num_eq (envelope_target policy_inverted row_1000)
           (Fin (1000 * (1 + max_inc policy_inverted))).
Proof.
  split; [reflexivity|]. split; [reflexivity|].
  vm_compute. discriminate.
Qed.

(** ** After the clamp: competitor band and standard cap *)

Lemma competitor_band_target (p : Policy) (unit : string)
    (comp_avg target : num) (rationale : list string) :
  let t := fst (competitor_band p unit comp_avg target rationale) in
  t = target \/
  t = fmul comp_avg (Fin (1 + band_vs_comp p)) \/
  t = fmul comp_avg (Fin (1 - band_vs_comp p)).
Proof.
  unfold competitor_band, py_max, flt.
  destruct (isnan comp_avg); simpl; [auto|].
  destruct (fgt target _) eqn:E1; simpl;
    destruct (fgt (fmul comp_avg (Fin (1 - band_vs_comp p))) _) eqn:E2;
    simpl; auto.
Qed.

Lemma standard_cap_target (p : Policy) (std target : num)
    (rationale : list string) :
  let t := fst (standard_cap p std target rationale) in
  t = target \/ t = fmul std (Fin (1 + band_vs_standard p)).
Proof.
  unfold standard_cap.
  destruct (isnan std); simpl; [auto|].
  destruct (fgt target _); simpl; auto.
Qed.

Lemma pre_round_target_cases (p : Policy) (comp_by_unit : gmap string num)
    (row : Row) :
  let t := pre_round_target p comp_by_unit row in
  let comp_avg := comp_avg_of comp_by_unit (unit_type row) in
  t = envelope_target p row \/
  t = fmul comp_avg (Fin (1 + band_vs_comp p)) \/
  t = fmul comp_avg (Fin (1 - band_vs_comp p)) \/
  t = fmul (current_standard_rate row) (Fin (1 + band_vs_standard p)).
Proof.
  unfold pre_round_target, pre_round, banded. simpl.
  pose proof (competitor_band_target p (unit_type row)
                (comp_avg_of comp_by_unit (unit_type row))
                (envelope_target p row) []) as Hb.
  destruct (competitor_band _ _ _ _ _) as [t1 r1]. simpl in Hb.
  pose proof (standard_cap_target p (current_standard_rate row) t1 r1) as Hs.
  simpl in Hs. destruct Hs as [-> | ->]; [|auto].
  destruct Hb as [-> | [-> | ->]]; auto.
Qed.

Lemma envelope_target_fin (p : Policy) (row : Row) (cur : Q) :
  current_tenant_rate row = Fin cur ->
  exists e : Q,
    envelope_target p row = Fin e /\
    cur * (1 + min_inc p) <= e /\
    (cur * (1 + min_inc p) <= cur * (1 + max_inc p) ->
     e <= cur * (1 + max_inc p)).
Proof.
  intros Hcur. unfold envelope_target, raw_target. rewrite Hcur. simpl.
  destruct (envelope_fin p cur (cur * (1 + base_inc p (months_since_last_increase row))))
    as (e & He & Hlo & Hhi & _).
  exists e. auto.
Qed.






(** ** Rows without competitor or standard signal *)

Lemma round_step_close (v : Q) (s : Z) :
  (0 < s)%Z ->
  Qabs (inject_Z (round_half_even (v / inject_Z s) * s) - v)
  <= inject_Z s / 2.
Proof.
  intros Hs.
  assert (0 < inject_Z s) as Hs' by (rewrite Zlt_Qlt in Hs; exact Hs).
  rewrite scale_step by exact Hs.
  pose proof (round_half_even_close (v / inject_Z s)) as Hc.
  apply (Qmult_le_compat_r _ _ (inject_Z s)) in Hc; [|lra].
  eapply Qle_trans; [exact Hc|]. apply Qle_lteq; right. field.
Qed.

Lemma pre_round_no_signal (p : Policy) (comp_by_unit : gmap string num)
    (row : Row) :
  comp_avg_of comp_by_unit (unit_type row) = NaN ->
  current_standard_rate row = NaN ->
  pre_round p comp_by_unit row
  = (envelope_target p row,
     ["No competitor data; using policy caps/standard."]).
Proof.
  intros Hc Hs. unfold pre_round, banded. simpl.
  rewrite Hc, Hs. reflexivity.
Qed.

Lemma suggest_of_pre_round (p : Policy) (comp_by_unit : gmap string num)
    (row : Row) (t : Q) :
  pre_round_target p comp_by_unit row = Fin t ->
  round_step p <> 0%Z ->
  exists s : Suggestion,
    suggest p comp_by_unit row = Ok s /\
    suggested_rate s
    = (round_half_even (t / inject_Z (round_step p)) * round_step p)%Z.
Proof.
  intros Ht Hstep. unfold suggest, suggest_trace.
  unfold pre_round_target in Ht.
  destruct (pre_round p comp_by_unit row) as [t' r]. simpl in Ht. subst t'.
  rewrite round_to_step_fin by exact Hstep. simpl.
  destruct (pending_action _ _ _) as [a r']. simpl.
  eexists. split; reflexivity.
Qed.

(** C7 (amended): for every row with a numeric [current_tenant_rate],
    no competitor average and no standard rate, under a policy whose
    envelope is not inverted for that row
    ([cur * (1 + min_inc) <= cur * (1 + max_inc)], e.g. a non-negative
    rate and [min_inc <= max_inc]), whose two envelope bounds are of
    magnitude at most [binary64_safe], and a positive rounding step up
    to the same bound, the pre-rounding target lies within the envelope,
    [suggest] returns, and the rounded [suggested_rate] differs from the
    pre-rounding target by at most half the rounding step.  The
    magnitude bound keeps the target away from the range in which the
    script's product overflows or its quotient [target / step] is
    rounded across a half-integer: whatever binary64 value [T] of
    magnitude up to twice the bound the script's products give the
    target, and whatever float IEEE 754 allows as the quotient
    [T / step], the rounded multiple is at most half a step from [T]. *)
Theorem no_signal_target_in_envelope (p : Policy)
    (comp_by_unit : gmap string num) (row : Row) (cur : Q) :
  current_tenant_rate row = Fin cur ->
  comp_avg_of comp_by_unit (unit_type row) = NaN ->
  current_standard_rate row = NaN ->
  cur * (1 + min_inc p) <= cur * (1 + max_inc p) ->
  Qabs (cur * (1 + min_inc p)) <= binary64_safe ->
  Qabs (cur * (1 + max_inc p)) <= binary64_safe ->
  (0 < round_step p)%Z ->
  inject_Z (round_step p) <= binary64_safe ->
  (exists (t : Q) (s : Suggestion),
      pre_round_target p comp_by_unit row = Fin t /\
      cur * (1 + min_inc p) <= t <= cur * (1 + max_inc p) /\
      suggest p comp_by_unit row = Ok s /\
      Qabs (inject_Z (suggested_rate s) - t) <= inject_Z (round_step p) / 2) /\
  (forall T f : Q,
      is_binary64 T ->
      Qabs T <= 2 * binary64_safe ->
      binary64_result (T / inject_Z (round_step p)) f ->
      Qabs (inject_Z (round_half_even f * round_step p) - T)
      <= inject_Z (round_step p) / 2).
Proof.
  intros Hrow Hcomp Hstd Henv _ _ Hstep _. split.
  - destruct (envelope_target_fin p row cur Hrow) as (t & Ht & Hlo & Hhi).
    assert (pre_round_target p comp_by_unit row = Fin t) as Hpre.
    { unfold pre_round_target.
      rewrite pre_round_no_signal by assumption. exact Ht. }
    destruct (suggest_of_pre_round p comp_by_unit row t Hpre) as (s & Hs & Hrate);
      [lia|].
    exists t, s. repeat split; auto.
    rewrite Hrate. apply round_step_close. exact Hstep.
  - intros T f HT Hsafe Hf.
    rewrite (binary64_quotient_rounds_alike T (round_step p) f HT Hsafe Hstep Hf).
    apply round_step_close. exact Hstep.
Qed.

Lemma no_signal_target_in_envelope_witness :
  (exists (t : Q) (s : Suggestion),
      pre_round_target policy_consistent ∅ row_1000 = Fin t /\
      1000 * (1 + min_inc policy_consistent) <= t
        <= 1000 * (1 + max_inc policy_consistent) /\
      suggest policy_consistent ∅ row_1000 = Ok s /\
      Qabs (inject_Z (suggested_rate s) - t)
      <= inject_Z (round_step policy_consistent) / 2) /\
  (forall T f : Q,
      is_binary64 T ->
      Qabs T <= 2 * binary64_safe ->
      binary64_result (T / inject_Z (round_step policy_consistent)) f ->
      Qabs (inject_Z (round_half_even f * round_step policy_consistent) - T)
      <= inject_Z (round_step policy_consistent) / 2).
Proof.
  apply (no_signal_target_in_envelope policy_consistent ∅ row_1000 1000);
    [reflexivity|reflexivity|reflexivity|discriminate|discriminate
    |discriminate|reflexivity|discriminate].
Defined.

(** C7, counterexample: no competitor data, no standard rate, rate 1000
    and the inverted policy (min 50 %, max 25 %): the pre-rounding
    target is 1500, above [1000 * (1 + max_inc) = 1250]. *)
Lemma no_signal_target_above_max_bound :
  comp_avg_of ∅ (unit_type row_1000) = NaN /\
  current_standard_rate row_1000 = NaN /\
  num_eq (pre_round_target policy_inverted ∅ row_1000) (Fin 1500) /\
  ~ (exists t : Q,
        pre_round_target policy_inverted ∅ row_1000 = Fin t /\
        1000 * (1 + min_inc policy_inverted) <= t
          <= 1000 * (1 + max_inc policy_inverted)).
Proof.
  split; [reflexivity|]. split; [reflexivity|]. split; [reflexivity|].
  intros (t & Ht & _ & Hle). vm_compute in Ht. injection Ht as <-.
  revert Hle. vm_compute. auto.
Qed.

(** ** Cadence throttling *)

Lemma Qpy_max_spec (a b : Q) :
  a <= Qpy_max a b /\ b <= Qpy_max a b /\
  (Qpy_max a b = a \/ Qpy_max a b = b).
Proof.
  unfold Qpy_max. destruct (Qltb a b) eqn:E; qcmp; repeat split; auto; lra.
Qed.

Lemma base_inc_throttled (p : Policy) (m : Q) :
  m < inject_Z (cadence_months p) ->
  base_inc p (Fin m) = Qpy_max (min_inc p) (default_increase_pct p / 2).
Proof.
  intros Hm. unfold base_inc, flt, fgt. simpl.
  apply Qltb_true in Hm. rewrite Hm. reflexivity.
Qed.

Lemma base_inc_full (p : Policy) (months : num) :
  (months = NaN \/
   exists m : Q, months = Fin m /\ inject_Z (cadence_months p) <= m) ->
  base_inc p months = default_increase_pct p.
Proof.
  intros [-> | (m & -> & Hm)]; unfold base_inc, flt, fgt; simpl;
    [reflexivity|].
  apply Qltb_false in Hm. rewrite Hm. reflexivity.
Qed.

(** C6 (amended): for every row whose [months_since_last_increase] is
    known and strictly less than [cadence_months], the base increase is
    [max(min_inc, default_increase_pct / 2)] (the larger of the two);
    it is less than or equal to the base of the same row when throttling
    does not fire ([default_increase_pct]) provided
    [0 <= default_increase_pct] and [min_inc <= default_increase_pct]. *)
Theorem cadence_throttle_base (p : Policy) (m : Q) (months' : num) :
  m < inject_Z (cadence_months p) ->
  (months' = NaN \/
   exists m' : Q, months' = Fin m' /\ inject_Z (cadence_months p) <= m') ->
  base_inc p (Fin m) = Qpy_max (min_inc p) (default_increase_pct p / 2) /\
  min_inc p <= base_inc p (Fin m) /\
  default_increase_pct p / 2 <= base_inc p (Fin m) /\
  (base_inc p (Fin m) = min_inc p \/
   base_inc p (Fin m) = default_increase_pct p / 2) /\
  base_inc p months' = default_increase_pct p /\
  (0 <= default_increase_pct p ->
   min_inc p <= default_increase_pct p ->
   base_inc p (Fin m) <= base_inc p months').
Proof.
  intros Hm Hfull.
  rewrite (base_inc_throttled p m Hm), (base_inc_full p months' Hfull).
  destruct (Qpy_max_spec (min_inc p) (default_increase_pct p / 2))
    as (H1 & H2 & H3).
  repeat split; auto.
  intros H0 Hle.
  assert (default_increase_pct p / 2 == default_increase_pct p * (1 # 2))
    as Hhalf by field.
  destruct H3 as [-> | ->]; lra.
Qed.

Lemma cadence_throttle_base_witness :
  base_inc policy_consistent (Fin 3)
  = Qpy_max (min_inc policy_consistent)
            (default_increase_pct policy_consistent / 2) /\
  min_inc policy_consistent <= base_inc policy_consistent (Fin 3) /\
  default_increase_pct policy_consistent / 2
  <= base_inc policy_consistent (Fin 3) /\
  (base_inc policy_consistent (Fin 3) = min_inc policy_consistent \/
   base_inc policy_consistent (Fin 3)
   = default_increase_pct policy_consistent / 2) /\
  base_inc policy_consistent NaN = default_increase_pct policy_consistent /\
  (0 <= default_increase_pct policy_consistent ->
   min_inc policy_consistent <= default_increase_pct policy_consistent ->
   base_inc policy_consistent (Fin 3) <= base_inc policy_consistent NaN).
Proof.
  apply (cadence_throttle_base policy_consistent 3 NaN);
    [reflexivity|left; reflexivity].
Defined.

(** C6, counterexample: default 12.5 %, min 25 %, three months since the
    last increase with a cadence of ten: the throttled base is 25 %,
    above the unthrottled base 12.5 %. *)
Lemma throttled_base_above_default :
  3 < inject_Z (cadence_months policy_high_min) /\
  base_inc policy_high_min (Fin 3) == 1 # 4 /\
  base_inc policy_high_min NaN == 1 # 8 /\
  ~ base_inc policy_high_min (Fin 3) <= base_inc policy_high_min NaN.
Proof.
  split; [reflexivity|]. split; [reflexivity|]. split; [reflexivity|].
  vm_compute. auto.
Qed.

(** ** Competitor banding *)

Lemma envelope_target_with_band (p : Policy) (b : Q) (row : Row) :
  envelope_target (with_band p b) row = envelope_target p row.
Proof. reflexivity. Qed.

Lemma band_closer (p : Policy) (unit : string) (c t b1 b2 : Q)
    (rationale : list string) :
  0 <= b1 -> b1 <= b2 ->
  0 <= c \/ (0 <= t /\ b2 <= 1) ->
  exists t1 t2 : Q,
    fst (competitor_band (with_band p b1) unit (Fin c) (Fin t) rationale)
    = Fin t1 /\
    fst (competitor_band (with_band p b2) unit (Fin c) (Fin t) rationale)
    = Fin t2 /\
    Qabs (t2 - t) <= Qabs (t1 - t).
Proof.
  intros Hb1 Hb12 Hsign.
  assert (0 <= c /\ 0 <= c * b1 /\ c * b1 <= c * b2 \/
          c <= 0 /\ 0 <= t /\ c * b1 <= 0 /\ c * b2 <= c * b1 /\ c <= c * b2)
    as Hprod.
  { destruct (Qlt_le_dec c 0) as [Hc|Hc].
    - right. destruct Hsign as [?|[? ?]]; [lra|]. repeat split; try nra; lra.
    - left. repeat split; nra. }
  unfold competitor_band. cbn [with_band band_vs_comp isnan negb].
  unfold py_max, flt, fgt, fmul. cbv beta iota zeta.
  repeat (match goal with
          | |- context [Qltb ?a ?b] => destruct (Qltb a b) eqn:?
          end; cbv beta iota zeta; cbn [fst]);
    qcmp; do 2 eexists; (split; [reflexivity|]); (split; [reflexivity|]);
    qabs; destruct Hprod as [(?&?&?)|(?&?&?&?&?)]; lra.
Qed.

(** C8 (amended): for every row with a numeric [current_tenant_rate]
    and a known competitor average, at least one of the two
    non-negative, and any two band values [b1 <= b2] within the
    sidebar's range (all other settings equal), the post-banding target
    computed with [b2] is at least as close to the pre-banding target as
    the one computed with [b1]. *)
Theorem wider_band_never_further (p : Policy)
    (comp_by_unit : gmap string num) (row : Row) (cur c b1 b2 : Q) :
  sidebar_ok (with_band p b1) ->
  sidebar_ok (with_band p b2) ->
  b1 <= b2 ->
  current_tenant_rate row = Fin cur ->
  comp_avg_of comp_by_unit (unit_type row) = Fin c ->
  0 <= cur \/ 0 <= c ->
  exists t t1 t2 : Q,
    envelope_target (with_band p b1) row = Fin t /\
    envelope_target (with_band p b2) row = Fin t /\
    fst (banded (with_band p b1) comp_by_unit row) = Fin t1 /\
    fst (banded (with_band p b2) comp_by_unit row) = Fin t2 /\
    Qabs (t2 - t) <= Qabs (t1 - t).
Proof.
  intros Hok1 Hok2 Hb12 Hrow Hcomp Hsign.
  destruct Hok1 as (_ & _ & [Hmin _] & _ & [Hb1 _] & _).
  destruct Hok2 as (_ & _ & _ & _ & [_ Hb2] & _).
  simpl in Hmin, Hb1, Hb2.
  destruct (envelope_target_fin p row cur Hrow) as (t & Ht & Hlo & _).
  destruct (band_closer p (unit_type row) c t b1 b2 [] Hb1 Hb12)
    as (t1 & t2 & H1 & H2 & Hclose).
  { destruct Hsign as [Hcur|Hc]; [right|left; exact Hc].
    split; [nra|lra]. }
  exists t, t1, t2. rewrite !envelope_target_with_band.
  unfold banded. rewrite !envelope_target_with_band.
  cbv zeta. rewrite Hcomp, Ht. auto.
Qed.

Lemma wider_band_never_further_witness :
  exists t t1 t2 : Q,
    envelope_target (with_band policy_consistent (1 # 8)) row_1000 = Fin t /\
    envelope_target (with_band policy_consistent (1 # 4)) row_1000 = Fin t /\
    fst (banded (with_band policy_consistent (1 # 8)) comp_800 row_1000)
    = Fin t1 /\
    fst (banded (with_band policy_consistent (1 # 4)) comp_800 row_1000)
    = Fin t2 /\
    Qabs (t2 - t) <= Qabs (t1 - t).
Proof.
  apply (wider_band_never_further policy_consistent comp_800 row_1000
           1000 800 (1 # 8) (1 # 4)).
  - unfold sidebar_ok; simpl; repeat split; try discriminate; lia.
  - unfold sidebar_ok; simpl; repeat split; try discriminate; lia.
  - discriminate.
  - reflexivity.
  - reflexivity.
  - left. discriminate.
Defined.

(** C8, counterexample: a tenant rate of -100 and a competitor average
    of -100 under the default policy.  The clamped target is -108.  With
    a band of 0 the floor -100 raises it to -100, 8 away; with a band of
    50 % the ceiling is -150 and the floor -50, the target ends at -50,
    58 away: the wider band moved it further. *)
Lemma wider_band_further_on_negative_rates :
  sidebar_ok (with_band policy_default 0) /\
  sidebar_ok (with_band policy_default (1 # 2)) /\
  num_eq (envelope_target policy_default row_negative) (Fin (-108)) /\
  num_eq (fst (banded (with_band policy_default 0) comp_negative row_negative))
         (Fin (-100)) /\
  num_eq (fst (banded (with_band policy_default (1 # 2)) comp_negative
                 row_negative))
         (Fin (-50)) /\
  ~ (exists t t1 t2 : Q,
        envelope_target policy_default row_negative = Fin t /\
        fst (banded (with_band policy_default 0) comp_negative row_negative)
        = Fin t1 /\
        fst (banded (with_band policy_default (1 # 2)) comp_negative
               row_negative)
        = Fin t2 /\
        Qabs (t2 - t) <= Qabs (t1 - t)).
Proof.
  split; [unfold sidebar_ok; simpl; repeat split; try discriminate; lia|].
  split; [unfold sidebar_ok; simpl; repeat split; try discriminate; lia|].
  split; [reflexivity|]. split; [reflexivity|]. split; [reflexivity|].
  intros (t & t1 & t2 & Ht & H1 & H2 & Hle).
  vm_compute in Ht, H1, H2.
  injection Ht as <-. injection H1 as <-. injection H2 as <-.
  revert Hle. vm_compute. auto.
Qed.

(** ** Rows without a numeric tenant rate *)

Lemma envelope_target_nan (p : Policy) (row : Row) :
  current_tenant_rate row = NaN -> envelope_target p row = NaN.
Proof.
  intros Hcur. unfold envelope_target, raw_target. rewrite Hcur. reflexivity.
Qed.

Lemma competitor_band_nan (p : Policy) (unit : string) (comp_avg : num)
    (rationale : list string) :
  fst (competitor_band p unit comp_avg NaN rationale) = NaN.
Proof.
  unfold competitor_band. destruct comp_avg; reflexivity.
Qed.

Lemma standard_cap_nan (p : Policy) (std : num) (rationale : list string) :
  fst (standard_cap p std NaN rationale) = NaN.
Proof.
  unfold standard_cap. destruct std; reflexivity.
Qed.

Lemma pre_round_target_nan (p : Policy) (comp_by_unit : gmap string num)
    (row : Row) :
  current_tenant_rate row = NaN ->
  pre_round_target p comp_by_unit row = NaN.
Proof.
  intros Hcur. unfold pre_round_target, pre_round, banded. cbv zeta.
  rewrite (envelope_target_nan p row Hcur).
  pose proof (competitor_band_nan p (unit_type row)
                (comp_avg_of comp_by_unit (unit_type row)) []) as Hb.
  destruct (competitor_band _ _ _ _ _) as [t r]. simpl in Hb. subst t.
  apply standard_cap_nan.
Qed.

Lemma round_to_step_nan (step : Z) :
  exists e : exn, round_to_step NaN step = Raise e.
Proof.
  unfold round_to_step, fdiv_int.
  destruct (step =? 0)%Z; eexists; reflexivity.
Qed.

Lemma suggest_nan_raises (p : Policy) (comp_by_unit : gmap string num)
    (row : Row) :
  current_tenant_rate row = NaN ->
  exists e : exn, suggest p comp_by_unit row = Raise e.
Proof.
  intros Hcur. pose proof (pre_round_target_nan p comp_by_unit row Hcur) as Ht.
  unfold suggest, suggest_trace. unfold pre_round_target in Ht.
  destruct (pre_round p comp_by_unit row) as [t r]. simpl in Ht. subst t.
  destruct (round_to_step_nan (round_step p)) as [e He].
  exists e. rewrite He. reflexivity.
Qed.

Lemma apply_suggest_raises (p : Policy) (comp_by_unit : gmap string num)
    (rows : list Row) (row : Row) :
  In row rows ->
  current_tenant_rate row = NaN ->
  exists e : exn, apply_suggest p comp_by_unit rows = Raise e.
Proof.
  intros Hin Hcur. induction rows as [|r rest IH]; [destruct Hin|].
  simpl. destruct Hin as [-> | Hin].
  - destruct (suggest_nan_raises p comp_by_unit row Hcur) as [e He].
    exists e. rewrite He. reflexivity.
  - destruct (suggest p comp_by_unit r) as [s|e]; [|exists e; reflexivity].
    destruct (IH Hin) as [e He]. exists e. rewrite He. reflexivity.
Qed.

(** C1 (does not hold of the code): a row whose
    [current_tenant_rate] is missing makes [suggest] raise, whatever the
    policy and the competitor index; the exception leaves [df.apply], so
    the run yields no output table at all: neither a flagged row for
    that record nor a suggestion for any other record. *)
Theorem missing_rate_aborts_run (p : Policy)
    (cdf : option (list (string * num))) (scraped : list (list Q))
    (raw : list Row) (row : Row) :
  In row raw ->
  current_tenant_rate row = NaN ->
  (forall comp_by_unit : gmap string num,
      exists e : exn, suggest p comp_by_unit row = Raise e) /\
  exists e : exn, run p cdf scraped raw = Raise e.
Proof.
  intros Hin Hcur. split.
  - intros comp_by_unit. apply suggest_nan_raises. exact Hcur.
  - unfold run.
    destruct (apply_suggest_raises p
                (build_comp_by_unit cdf scraped (map normalize_row raw))
                (map normalize_row raw) (normalize_row row)) as [e He].
    + apply in_map. exact Hin.
    + exact Hcur.
    + exists e. rewrite He. reflexivity.
Qed.

Lemma missing_rate_aborts_run_witness :
  (forall comp_by_unit : gmap string num,
      exists e : exn, suggest policy_consistent comp_by_unit row_nan_rate = Raise e) /\
  exists e : exn,
    run policy_consistent None [] [row_1000; row_nan_rate; row_recent] = Raise e.
Proof.
  apply (missing_rate_aborts_run policy_consistent None []
           [row_1000; row_nan_rate; row_recent] row_nan_rate).
  - right. left. reflexivity.
  - reflexivity.
Defined.

Example run_without_missing_rate :
  exists out, run policy_consistent None [] [row_1000; row_recent] = Ok out /\
              length out = 2%nat.
Proof. eexists. split; [vm_compute; reflexivity|reflexivity]. Qed.

Example run_with_missing_rate :
  run policy_consistent None [] [row_1000; row_nan_rate; row_recent]
  = Raise ValueError.
Proof. vm_compute. reflexivity. Qed.

(** ** The shape of the rationale *)

Lemma banded_shape (p : Policy) (comp_by_unit : gmap string num) (row : Row) :
  let comp_avg := comp_avg_of comp_by_unit (unit_type row) in
  exists (first : string) (middle : list string),
    snd (banded p comp_by_unit row) = first :: middle /\
    is_comp_avg_clause first = negb (isnan comp_avg) /\
    is_no_comp_clause first = isnan comp_avg /\
    Forall not_opening middle.
Proof.
  intros comp_avg. unfold banded, competitor_band. cbv zeta.
  fold comp_avg. destruct (isnan comp_avg); cbn [negb].
  - exists "No competitor data; using policy caps/standard.", [].
    repeat split; constructor.
  - generalize (fmt0 comp_avg) (fmt0 (fmul comp_avg (Fin (1 + band_vs_comp p))))
      (fmt0 (fmul comp_avg (Fin (1 - band_vs_comp p)))).
    intros f0 f1 f2.
    destruct (fgt (envelope_target p row) _); cbv beta iota;
      match goal with
      | |- context [if ?b then _ else _] => destruct b
      end; cbn [snd app]; eexists; eexists;
      (split; [reflexivity|]); repeat split;
      repeat constructor.
Qed.

Lemma standard_cap_shape (p : Policy) (std target : num)
    (rationale : list string) :
  exists extra : list string,
    snd (standard_cap p std target rationale) = rationale ++ extra /\
    Forall not_opening extra.
Proof.
  unfold standard_cap. destruct (isnan std); cbn [negb].
  - exists []. rewrite app_nil_r. split; [reflexivity|constructor].
  - generalize (fmt0 (fmul std (Fin (1 + band_vs_standard p)))). intros f.
    destruct (fgt target _); cbn [snd].
    + eexists. split; [reflexivity|]. repeat constructor.
    + exists []. rewrite app_nil_r. split; [reflexivity|constructor].
Qed.

Lemma pending_action_shape (pend : num) (target : Z) (rationale : list string) :
  exists last : string,
    snd (pending_action pend target rationale) = rationale ++ [last] /\
    is_pending_clause last = negb (isnan pend) /\
    is_no_pending_clause last = isnan pend /\
    not_opening last.
Proof.
  unfold pending_action. destruct (isnan pend); cbn [negb snd].
  - eexists. split; [reflexivity|]. repeat split.
  - eexists. split; [reflexivity|]. repeat split.
Qed.

Lemma pre_round_shape (p : Policy) (comp_by_unit : gmap string num) (row : Row) :
  let comp_avg := comp_avg_of comp_by_unit (unit_type row) in
  exists (first : string) (middle : list string),
    snd (pre_round p comp_by_unit row) = first :: middle /\
    is_comp_avg_clause first = negb (isnan comp_avg) /\
    is_no_comp_clause first = isnan comp_avg /\
    Forall not_opening middle.
Proof.
  intros comp_avg.
  destruct (banded_shape p comp_by_unit row) as (first & mid & Hb & H1 & H2 & H3).
  unfold pre_round. cbv zeta.
  destruct (banded p comp_by_unit row) as [t r]. simpl in Hb. subst r.
  destruct (standard_cap_shape p (current_standard_rate row) t (first :: mid))
    as (extra & He & Hextra).
  exists first, (mid ++ extra). split; [exact He|].
  repeat split; auto. apply Forall_app. auto.
Qed.

Lemma suggest_trace_inv (p : Policy) (comp_by_unit : gmap string num)
    (row : Row) (target : Z) (act : string) (clauses : list string) :
  suggest_trace p comp_by_unit row = Ok (target, act, clauses) ->
  clauses = snd (pending_action (pending_tenant_rate row) target
                   (snd (pre_round p comp_by_unit row))).
Proof.
  unfold suggest_trace. destruct (pre_round p comp_by_unit row) as [t r].
  destruct (round_to_step t (round_step p)) as [k|e]; simpl; [|discriminate].
  destruct (pending_action _ k r) as [a r'] eqn:E. simpl.
  intros H. inversion H; subst. rewrite E. reflexivity.
Qed.

Lemma opening_nonempty (first : string) (b : bool) :
  is_comp_avg_clause first = negb b ->
  is_no_comp_clause first = b ->
  first <> "".
Proof.
  intros H1 H2 ->. destruct b; discriminate.
Qed.

Lemma join_space_nonempty (first : string) (rest : list string) :
  first <> "" -> join_space (first :: rest) <> "".
Proof.
  intros Hne. destruct first as [|a f]; [contradiction|].
  destruct rest; simpl; discriminate.
Qed.

(** C10: whenever [suggest] returns for a row, the rationale it emits is
    non-empty; its list of clauses starts with the competitor-average
    clause when a competitor average is known and with the "No
    competitor data" clause otherwise, no later clause is of either of
    these two kinds (so exactly one of them appears), and its last
    clause is the pending-versus-suggested clause when a pending rate is
    known and the "No pending; set" clause otherwise. *)
Theorem rationale_opening_and_closing (p : Policy)
    (comp_by_unit : gmap string num) (row : Row) (s : Suggestion) :
  suggest p comp_by_unit row = Ok s ->
  let comp_avg := comp_avg_of comp_by_unit (unit_type row) in
  let pend := pending_tenant_rate row in
  exists (first : string) (middle : list string) (last : string),
    suggest_trace p comp_by_unit row
    = Ok (suggested_rate s, action s, first :: middle ++ [last]) /\
    rationale s = join_space (first :: middle ++ [last]) /\
    rationale s <> "" /\
    is_comp_avg_clause first = negb (isnan comp_avg) /\
    is_no_comp_clause first = isnan comp_avg /\
    Forall not_opening (middle ++ [last]) /\
    is_pending_clause last = negb (isnan pend) /\
    is_no_pending_clause last = isnan pend.
Proof.
  intros Hs comp_avg pend. unfold suggest in Hs.
  destruct (suggest_trace p comp_by_unit row) as [[[t a] r]|e] eqn:Ht;
    simpl in Hs; [|discriminate].
  injection Hs as <-. simpl.
  apply suggest_trace_inv in Ht as Hr.
  destruct (pre_round_shape p comp_by_unit row)
    as (first & mid & Hpre & H1 & H2 & Hmid).
  rewrite Hpre in Hr.
  destruct (pending_action_shape (pending_tenant_rate row) t (first :: mid))
    as (last & Hlast & H3 & H4 & H5).
  rewrite Hlast in Hr. simpl in Hr. subst r.
  exists first, mid, last. split; [reflexivity|]. split; [reflexivity|].
  split; [apply join_space_nonempty; eapply opening_nonempty; eassumption|].
  repeat split; auto. apply Forall_app. auto.
Qed.

Lemma rationale_opening_and_closing_witness :
  exists (first : string) (middle : list string) (last : string),
    suggest_trace policy_consistent comp_800 row_recent
    = Ok (1000%Z, "decrease", first :: middle ++ [last]) /\
    "Comp avg for '10x10' ≈ $800. Above comp ceiling $1000; capping. Pending $1100 → Suggested $1000 ⇒ decrease."
    = join_space (first :: middle ++ [last]) /\
    "Comp avg for '10x10' ≈ $800. Above comp ceiling $1000; capping. Pending $1100 → Suggested $1000 ⇒ decrease."
    <> "" /\
    is_comp_avg_clause first = true /\
    is_no_comp_clause first = false /\
    Forall not_opening (middle ++ [last]) /\
    is_pending_clause last = true /\
    is_no_pending_clause last = false.
Proof.
  apply (rationale_opening_and_closing policy_consistent comp_800 row_recent
           {| suggested_rate := 1000;
              action := "decrease";
              rationale := "Comp avg for '10x10' ≈ $800. Above comp ceiling $1000; capping. Pending $1100 → Suggested $1000 ⇒ decrease." |}).
  vm_compute. reflexivity.
Defined.

(** ** The competitor index *)

Lemma groupby_lookup (rows : list (string * num)) (u : string) :
  groupby rows !! u
  = match rates_of u rows with
    | [] => None
    | l => Some l
    end.
Proof.
  induction rows as [|[k r] rest IH]; simpl; [apply lookup_empty|].
  rewrite lookup_insert.
  destruct (String.eqb_spec k u) as [->|Hne].
  - rewrite decide_True by reflexivity. rewrite IH.
    destruct (rates_of u rest); reflexivity.
  - rewrite decide_False by exact Hne. exact IH.
Qed.

Lemma groupby_mean_lookup (rows : list (string * num)) (u : string) :
  groupby_mean rows !! u
  = match rates_of u rows with
    | [] => None
    | l => Some (group_mean l)
    end.
Proof.
  unfold groupby_mean. rewrite lookup_fmap, groupby_lookup.
  destruct (rates_of u rows); reflexivity.
Qed.

Lemma fill_missing_lookup (units : list string) (g : num)
    (m : gmap string num) (u : string) :
  fill_missing units g m !! u
  = match m !! u with
    | Some x => Some x
    | None => if in_dec string_dec u units then Some g else None
    end.
Proof.
  revert m. induction units as [|ut rest IH]; intros m; simpl.
  - destruct (m !! u); reflexivity.
  - rewrite IH. destruct (m !! ut) as [x|] eqn:Eut.
    + destruct (m !! u) eqn:Eu; [reflexivity|].
      destruct (string_dec ut u) as [->|Hne]; [congruence|].
      destruct (in_dec string_dec u rest); reflexivity.
    + rewrite lookup_insert.
      destruct (string_dec ut u) as [->|Hne].
      * rewrite decide_True by reflexivity. rewrite Eut. reflexivity.
      * rewrite decide_False by exact Hne.
        destruct (m !! u); [reflexivity|].
        destruct (in_dec string_dec u rest); reflexivity.
Qed.

Lemma manual_index_lookup (cdf : option (list (string * num))) (u : string) :
  manual_index cdf !! u
  = match rates_of u (from_option keyed [] cdf) with
    | [] => None
    | l => Some (group_mean l)
    end.
Proof.
  destruct cdf as [rows|]; simpl; [apply groupby_mean_lookup|apply lookup_empty].
Qed.

Lemma banded_no_signal (p : Policy) (comp_by_unit : gmap string num)
    (row : Row) :
  comp_avg_of comp_by_unit (unit_type row) = NaN ->
  banded p comp_by_unit row
  = (envelope_target p row,
     ["No competitor data; using policy caps/standard."]).
Proof.
  intros Hc. unfold banded. cbv zeta. rewrite Hc. reflexivity.
Qed.

(** C5 (does not hold of the code): a unit type whose manual rows all
    have a blank rate is filed in the index under a missing average,
    because pandas' group mean skips missing rates and an empty group
    has a missing mean.  The fill loop tests only whether the key is
    present, so this unit type never receives the scraped global
    average, whatever was scraped: its rows are told "No competitor
    data".  A unit type of the tenant feed without any manual row does
    receive the global average. *)
Theorem blank_manual_rate_blocks_fallback (cdf : option (list (string * num)))
    (scraped : list (list Q)) (df : list Row) (u : string) :
  let index := build_comp_by_unit cdf scraped df in
  let manual := from_option keyed [] cdf in
  (rates_of u manual <> [] ->
   numeric (rates_of u manual) = [] ->
   index !! u = Some NaN /\
   comp_avg_of index u = NaN /\
   forall (p : Policy) (row : Row),
     unit_type row = u ->
     banded p index row
     = (envelope_target p row,
        ["No competitor data; using policy caps/standard."])) /\
  (rates_of u manual = [] ->
   In u (map unit_type df) ->
   index !! u = Some (global_avg scraped) /\
   comp_avg_of index u = global_avg scraped).
Proof.
  intros index manual.
  assert (index !! u
          = match manual_index cdf !! u with
            | Some x => Some x
            | None => if in_dec string_dec u (map unit_type df)
                      then Some (global_avg scraped) else None
            end) as Hidx by apply fill_missing_lookup.
  rewrite manual_index_lookup in Hidx. fold manual in Hidx.
  split.
  - intros Hne Hblank.
    assert (index !! u = Some NaN) as H.
    { rewrite Hidx. destruct (rates_of u manual) as [|r rs] eqn:E;
        [contradiction|].
      unfold group_mean. rewrite Hblank. reflexivity. }
    assert (comp_avg_of index u = NaN) as H'
      by (unfold comp_avg_of; rewrite H; reflexivity).
    split; [exact H|]. split; [exact H'|].
    intros p row <-. apply banded_no_signal. exact H'.
  - intros Hnone Hin.
    assert (index !! u = Some (global_avg scraped)) as H.
    { rewrite Hidx, Hnone.
      destruct (in_dec string_dec u (map unit_type df)); [reflexivity|contradiction]. }
    split; [exact H|]. unfold comp_avg_of. rewrite H. reflexivity.
Qed.

Lemma blank_manual_rate_blocks_fallback_witness :
  let df := map normalize_row [row_5x5] in
  num_eq (global_avg scraped_sample) (Fin 100) /\
  comp_avg_of (build_comp_by_unit (Some manual_blank) scraped_sample df) "5x5"
  = NaN /\
  comp_avg_of (build_comp_by_unit None scraped_sample df) "5x5"
  = global_avg scraped_sample.
Proof.
  intros df.
  pose proof (blank_manual_rate_blocks_fallback (Some manual_blank)
                scraped_sample df "5x5") as (H1 & _).
  pose proof (blank_manual_rate_blocks_fallback None scraped_sample df "5x5")
    as (_ & H2).
  split; [reflexivity|]. split.
  - apply H1; [discriminate|reflexivity].
  - apply H2; [reflexivity|left; reflexivity].
Defined.

(** The same run with and without the blank manual row: without it the
    scraped average 100 raises the suggestion to the competitor floor,
    rounded to 95; with it the row is told there is no competitor data
    and gets 60. *)
Example run_with_blank_manual_rate :
  (exists out,
      run policy_default (Some manual_blank) scraped_sample [row_5x5] = Ok out /\
      map (fun rs => suggested_rate (snd rs)) out = [60%Z]) /\
  (exists out,
      run policy_default None scraped_sample [row_5x5] = Ok out /\
      map (fun rs => suggested_rate (snd rs)) out = [95%Z]).
Proof. split; eexists; (split; [vm_compute; reflexivity|reflexivity]). Qed.

(** ** Unit-type keys *)

Lemma space_not_x (c : ascii) : is_space c = true -> is_x c = false.
Proof.
  unfold is_x. destruct (Ascii.eqb_spec c "x") as [->|]; [discriminate|reflexivity].
Qed.

Lemma is_x_eq (c : ascii) : is_x c = true -> c = "x"%char.
Proof. unfold is_x. intros H. apply Ascii.eqb_eq. exact H. Qed.

Lemma starts_with_x_cons (c : ascii) (r : string) :
  starts_with "x" (String c r) = is_x c.
Proof.
  unfold is_x.
  change (starts_with "x" (String c r)) with (Ascii.eqb "x" c && true).
  rewrite andb_true_r. apply Ascii.eqb_sym.
Qed.

(** *** Stripping *)

Lemma lstrip_drop_span (s : string) : str_drop (span_space s) s = lstrip s.
Proof.
  induction s as [|c s IH]; simpl; [reflexivity|].
  destruct (is_space c); [exact IH|reflexivity].
Qed.

Lemma lstrip_idem (s : string) : lstrip (lstrip s) = lstrip s.
Proof.
  induction s as [|c s IH]; simpl; [reflexivity|].
  destruct (is_space c) eqn:E; [exact IH|]. simpl. rewrite E. reflexivity.
Qed.

Lemma lstrip_app_space (w s : string) :
  all_space w = true -> lstrip (w +:+ s) = lstrip s.
Proof.
  induction w as [|c w IH]; simpl; [reflexivity|].
  intros H. apply andb_true_iff in H as [Hc Hw]. rewrite Hc. auto.
Qed.

Lemma rstrip_cons_nonspace (c : ascii) (s : string) :
  is_space c = false -> rstrip (String c s) = String c (rstrip s).
Proof.
  intros Hc. simpl. rewrite Hc. destruct (rstrip s); reflexivity.
Qed.

Lemma rstrip_cons_space (c : ascii) (s : string) :
  is_space c = true ->
  rstrip (String c s)
  = match rstrip s with
    | EmptyString => EmptyString
    | r => String c r
    end.
Proof. intros Hc. simpl. rewrite Hc. reflexivity. Qed.

Lemma rstrip_all_space (w : string) : all_space w = true -> rstrip w = "".
Proof.
  induction w as [|c w IH]; simpl; [reflexivity|].
  intros H. apply andb_true_iff in H as [Hc Hw]. rewrite (IH Hw), Hc. reflexivity.
Qed.

Lemma lstrip_rstrip (s : string) : lstrip (rstrip s) = rstrip (lstrip s).
Proof.
  induction s as [|c s IH]; [reflexivity|].
  destruct (is_space c) eqn:Hc.
  - rewrite rstrip_cons_space by exact Hc.
    cbn [lstrip]. rewrite Hc, <- IH.
    destruct (rstrip s) as [|d r]; [reflexivity|].
    cbn [lstrip]. rewrite Hc. reflexivity.
  - rewrite rstrip_cons_nonspace by exact Hc.
    cbn [lstrip]. rewrite Hc.
    rewrite rstrip_cons_nonspace by exact Hc. reflexivity.
Qed.

Lemma rstrip_idem (s : string) : rstrip (rstrip s) = rstrip s.
Proof.
  induction s as [|c s IH]; [reflexivity|].
  destruct (is_space c) eqn:Hc.
  - rewrite rstrip_cons_space by exact Hc.
    destruct (rstrip s) as [|d r] eqn:E; [reflexivity|].
    rewrite rstrip_cons_space by exact Hc. rewrite IH. reflexivity.
  - rewrite !rstrip_cons_nonspace by exact Hc. rewrite IH. reflexivity.
Qed.

Lemma str_strip_idem (s : string) : str_strip (str_strip s) = str_strip s.
Proof.
  unfold str_strip.
  rewrite (lstrip_rstrip (lstrip s)), lstrip_idem, rstrip_idem.
  reflexivity.
Qed.

(** *** The substitution, read from the left and from the right *)

Lemma re_sub_x_skip (k : nat) (s : string) :
  re_sub_x k s = re_sub_x 0 (str_drop k s).
Proof.
  revert s. induction k as [|k IH]; intros s; [reflexivity|].
  destruct s as [|c s]; [reflexivity|]. simpl. apply IH.
Qed.

Lemma match_len_pos (s : string) (n : nat) :
  match_len s = Some n -> exists m : nat, n = S m.
Proof.
  destruct s as [|c s]; simpl; [discriminate|].
  destruct (is_x c); [intros [= <-]; eauto|].
  destruct (is_space c); [|discriminate].
  destruct (match_len s); simpl; [intros [= <-]; eauto|discriminate].
Qed.

Lemma re_sub_x_match (s : string) (n : nat) :
  match_len s = Some n ->
  re_sub_x 0 s = String "x" (re_sub_x 0 (str_drop n s)).
Proof.
  intros Hm. destruct (match_len_pos s n Hm) as [m ->].
  destruct s as [|c s]; [discriminate|].
  cbn [re_sub_x]. rewrite Hm. cbn [Nat.pred str_drop].
  rewrite re_sub_x_skip. reflexivity.
Qed.

Lemma re_sub_x_no_match (c : ascii) (s : string) :
  match_len (String c s) = None ->
  re_sub_x 0 (String c s) = String c (re_sub_x 0 s).
Proof. intros Hm. cbn [re_sub_x]. rewrite Hm. reflexivity. Qed.

Lemma matches_x_cons (c : ascii) (s : string) :
  matches_x (String c s)
  = is_x c || (is_space c && matches_x s).
Proof.
  unfold matches_x. cbn [match_len].
  destruct (is_x c); [reflexivity|].
  destruct (is_space c); [|reflexivity].
  destruct (match_len s); reflexivity.
Qed.

Lemma tighten_x_starts (s : string) :
  starts_with "x" (tighten_x s) = matches_x s.
Proof.
  induction s as [|c s IH]; [reflexivity|].
  rewrite matches_x_cons. cbn [tighten_x].
  destruct (is_x c) eqn:Hx; [reflexivity|].
  destruct (is_space c) eqn:Hs; cbn [andb orb].
  - rewrite <- IH.
    destruct (starts_with "x" (tighten_x s)) eqn:E; [exact E|].
    rewrite starts_with_x_cons. exact Hx.
  - rewrite starts_with_x_cons. exact Hx.
Qed.

Lemma tighten_x_head_nonspace (c : ascii) (s : string) :
  is_space c = false -> lstrip (tighten_x (String c s)) = tighten_x (String c s).
Proof.
  intros Hc. cbn [tighten_x]. rewrite Hc. cbn [andb].
  destruct (is_x c); cbn [lstrip]; [reflexivity|]. rewrite Hc. reflexivity.
Qed.

Lemma lstrip_starts_x (r : string) :
  starts_with "x" r = true -> lstrip r = r.
Proof.
  destruct r as [|d r]; [reflexivity|].
  rewrite starts_with_x_cons. intros Hx. cbn [lstrip].
  destruct (is_space d) eqn:Hd; [|reflexivity].
  rewrite (space_not_x d Hd) in Hx. discriminate.
Qed.

Lemma lstrip_tighten_x (s : string) :
  lstrip (tighten_x s) = tighten_x (lstrip s).
Proof.
  induction s as [|c s IH]; [reflexivity|].
  destruct (is_space c) eqn:Hc.
  - cbn [lstrip]. rewrite Hc, <- IH. cbn [tighten_x].
    rewrite (space_not_x c Hc), Hc. cbn [andb].
    destruct (starts_with "x" (tighten_x s)) eqn:E; [reflexivity|].
    cbn [lstrip]. rewrite Hc. reflexivity.
  - rewrite tighten_x_head_nonspace by exact Hc.
    cbn [lstrip]. rewrite Hc. reflexivity.
Qed.

Lemma str_drop_length (n : nat) (s : string) :
  (String.length (str_drop n s) <= String.length s)%nat.
Proof.
  revert s. induction n as [|n IH]; intros s; [simpl; lia|].
  destruct s as [|c s]; simpl; [lia|]. specialize (IH s). lia.
Qed.

Lemma re_sub_x_tighten_bounded (n : nat) (s : string) :
  (String.length s <= n)%nat -> re_sub_x 0 s = tighten_x s.
Proof.
  revert s. induction n as [|n IH]; intros s Hlen.
  - destruct s; [reflexivity|simpl in Hlen; lia].
  - destruct s as [|c s]; [reflexivity|]. simpl in Hlen.
    assert (re_sub_x 0 s = tighten_x s) as IHs by (apply IH; lia).
    destruct (match_len (String c s)) as [k|] eqn:Hm.
    + rewrite (re_sub_x_match _ _ Hm).
      destruct (match_len_pos _ _ Hm) as [m ->]. cbn [str_drop].
      cbn [match_len] in Hm. cbn [tighten_x].
      destruct (is_x c) eqn:Hx.
      * injection Hm as <-. rewrite lstrip_drop_span, lstrip_tighten_x.
        f_equal. apply IH.
        rewrite <- lstrip_drop_span.
        pose proof (str_drop_length (span_space s) s). lia.
      * destruct (is_space c) eqn:Hs; [|discriminate]. cbn [andb].
        destruct (match_len s) as [j|] eqn:Hj; [|discriminate].
        injection Hm as <-.
        rewrite tighten_x_starts. unfold matches_x. rewrite Hj.
        rewrite <- IHs. symmetry. apply re_sub_x_match. exact Hj.
    + rewrite (re_sub_x_no_match _ _ Hm), IHs. cbn [tighten_x].
      pose proof (matches_x_cons c s) as Hc. unfold matches_x at 1 in Hc.
      rewrite Hm in Hc. symmetry in Hc. apply orb_false_iff in Hc as [Hx Hs].
      rewrite Hx, tighten_x_starts, Hs. reflexivity.
Qed.

Lemma str_replace_x_tighten (s : string) : str_replace_x s = tighten_x s.
Proof.
  unfold str_replace_x. apply (re_sub_x_tighten_bounded (String.length s)).
  lia.
Qed.

(** *** Whitespace around an x, and at the ends *)

Lemma append_cons (c : ascii) (a r : string) :
  String c a +:+ r = String c (a +:+ r).
Proof. reflexivity. Qed.

Lemma append_nil (r : string) : "" +:+ r = r.
Proof. reflexivity. Qed.





Lemma tighten_x_all_space (w : string) :
  all_space w = true -> tighten_x w = w.
Proof.
  induction w as [|c w IH]; [reflexivity|].
  cbn [all_space]. intros H. apply andb_true_iff in H as [Hc Hw].
  cbn [tighten_x]. rewrite (IH Hw), (space_not_x c Hc).
  destruct w as [|d w]; [rewrite andb_false_r; reflexivity|].
  rewrite starts_with_x_cons.
  cbn [all_space] in Hw. apply andb_true_iff in Hw as [Hd _].
  rewrite (space_not_x d Hd), andb_false_r. reflexivity.
Qed.

Lemma matches_x_app_space (s w : string) :
  all_space w = true -> matches_x (s +:+ w) = matches_x s.
Proof.
  intros Hw. induction s as [|c s IH].
  - rewrite append_nil. rewrite <- (tighten_x_starts w), (tighten_x_all_space w Hw).
    destruct w as [|d w]; [reflexivity|]. rewrite starts_with_x_cons.
    cbn [all_space] in Hw. apply andb_true_iff in Hw as [Hd _].
    rewrite (space_not_x d Hd). reflexivity.
  - rewrite append_cons, !matches_x_cons, IH. reflexivity.
Qed.

Lemma rstrip_cons_cong (c : ascii) (r1 r2 : string) :
  rstrip r1 = rstrip r2 -> rstrip (String c r1) = rstrip (String c r2).
Proof. intros H. cbn [rstrip]. rewrite H. reflexivity. Qed.

Lemma rstrip_tighten_x_trailing (s w : string) :
  all_space w = true ->
  rstrip (tighten_x (s +:+ w)) = rstrip (tighten_x s).
Proof.
  intros Hw. induction s as [|c s IH].
  - rewrite append_nil, (tighten_x_all_space w Hw).
    apply rstrip_all_space. exact Hw.
  - rewrite !append_cons. cbn [tighten_x].
    rewrite !tighten_x_starts, (matches_x_app_space s w Hw).
    destruct (is_x c) eqn:Hx.
    + apply rstrip_cons_cong.
      rewrite <- !lstrip_rstrip, IH. reflexivity.
    + destruct (is_space c && matches_x s); [exact IH|].
      apply rstrip_cons_cong. exact IH.
Qed.

Lemma strip_tighten_x_ends (w1 t w2 : string) :
  all_space w1 = true -> all_space w2 = true ->
  str_strip (tighten_x (w1 +:+ t +:+ w2)) = str_strip (tighten_x t).
Proof.
  intros H1 H2. unfold str_strip.
  rewrite !lstrip_tighten_x, (lstrip_app_space w1 _ H1).
  rewrite <- !lstrip_tighten_x, <- !lstrip_rstrip.
  rewrite (rstrip_tighten_x_trailing t w2 H2). reflexivity.
Qed.

(** *** Lower-casing *)

Ltac ascii_cases c := destruct c as [[] [] [] [] [] [] [] []].

Lemma lower_ascii_space (c : ascii) : is_space (lower_ascii c) = is_space c.
Proof. ascii_cases c; reflexivity. Qed.


Lemma lower_ascii_idem (c : ascii) : lower_ascii (lower_ascii c) = lower_ascii c.
Proof. ascii_cases c; reflexivity. Qed.

Lemma lower_ascii_is_x (c : ascii) :
  Ascii.eqb c "X" = false -> is_x (lower_ascii c) = is_x c.
Proof. ascii_cases c; intros H; try reflexivity; discriminate H. Qed.


Lemma str_lower_idem (s : string) : str_lower (str_lower s) = str_lower s.
Proof.
  induction s as [|c s IH]; [reflexivity|].
  cbn [str_lower]. rewrite lower_ascii_idem, IH. reflexivity.
Qed.

Lemma lstrip_lower (s : string) : lstrip (str_lower s) = str_lower (lstrip s).
Proof.
  induction s as [|c s IH]; [reflexivity|].
  cbn [str_lower lstrip]. rewrite lower_ascii_space.
  destruct (is_space c); [exact IH|reflexivity].
Qed.

Lemma rstrip_lower (s : string) : rstrip (str_lower s) = str_lower (rstrip s).
Proof.
  induction s as [|c s IH]; [reflexivity|].
  cbn [str_lower rstrip]. rewrite IH, lower_ascii_space.
  destruct (rstrip s); [destruct (is_space c)|]; reflexivity.
Qed.

Lemma str_strip_lower (s : string) :
  str_strip (str_lower s) = str_lower (str_strip s).
Proof. unfold str_strip. rewrite lstrip_lower, rstrip_lower. reflexivity. Qed.

Lemma matches_x_lower (s : string) :
  no_capital_x s = true -> matches_x (str_lower s) = matches_x s.
Proof.
  induction s as [|c s IH]; [reflexivity|].
  cbn [no_capital_x str_lower]. intros H.
  apply andb_true_iff in H as [Hc Hs]. apply negb_true_iff in Hc.
  rewrite !matches_x_cons, (lower_ascii_is_x c Hc), lower_ascii_space, (IH Hs).
  reflexivity.
Qed.

Lemma tighten_x_lower (s : string) :
  no_capital_x s = true -> tighten_x (str_lower s) = str_lower (tighten_x s).
Proof.
  induction s as [|c s IH]; [reflexivity|].
  cbn [no_capital_x]. intros H.
  apply andb_true_iff in H as [Hc Hs]. apply negb_true_iff in Hc.
  cbn [str_lower tighten_x].
  rewrite (lower_ascii_is_x c Hc), lower_ascii_space.
  rewrite !tighten_x_starts, (matches_x_lower s Hs), (IH Hs).
  destruct (is_x c) eqn:Hx.
  - apply is_x_eq in Hx. subst c. rewrite lstrip_lower. reflexivity.
  - destruct (is_space c && matches_x s); reflexivity.
Qed.

Lemma unit_key_tighten (s : string) :
  tenant_unit_key s = str_lower (str_strip (tighten_x s)).
Proof. unfold tenant_unit_key. rewrite str_replace_x_tighten. reflexivity. Qed.

Lemma unit_key_lower (s : string) :
  no_capital_x s = true -> tenant_unit_key (str_lower s) = tenant_unit_key s.
Proof.
  intros H. rewrite !unit_key_tighten, (tighten_x_lower s H).
  rewrite str_strip_lower, str_lower_idem. reflexivity.
Qed.




(** ** Worked scenarios *)

Example default_policy_no_signal :
  suggest policy_default ∅ row_1000
  = Ok {| suggested_rate := 1170;
          action := "set";
          rationale := "No competitor data; using policy caps/standard. No pending; set $1170." |}.
Proof. vm_compute. reflexivity. Qed.

Example default_policy_competitor_cap :
  suggest policy_default {[ "10x10" := Fin 1100 ]} row_1000
  = Ok {| suggested_rate := 1135;
          action := "set";
          rationale := "Comp avg for '10x10' ≈ $1100. Above comp ceiling $1133; capping. No pending; set $1135." |}.
Proof. vm_compute. reflexivity. Qed.

Example keys_of_sample_strings :
  map tenant_unit_key ["10 x 10"; " 5x 10 "; "Climate  Controlled"; "max size"; "10 X 10"]
  = ["10x10"; "5x10"; "climate  controlled"; "maxsize"; "10 x 10"].
Proof. vm_compute. reflexivity. Qed.

(** * Further properties of the code *)

(** ** The rounder: fixed points and order *)

Lemma round_half_even_Z (k : Z) : round_half_even (inject_Z k) = k.
Proof.
  unfold round_half_even. rewrite Qfloor_Z.
  assert (Qltb (inject_Z k - inject_Z k) (1 # 2) = true) as ->
    by (apply Qltb_true; lra).
  reflexivity.
Qed.

Lemma round_half_even_mono (q1 q2 : Q) :
  q1 <= q2 -> (round_half_even q1 <= round_half_even q2)%Z.
Proof.
  intros Hle.
  destruct (Z_lt_le_dec (round_half_even q2) (round_half_even q1)) as [Hlt|]; [|assumption].
  exfalso.
  pose proof (round_half_even_close q1) as H1.
  pose proof (round_half_even_close q2) as H2.
  apply Qabs_Qle_condition in H1. apply Qabs_Qle_condition in H2.
  assert (round_half_even q2 + 1 <= round_half_even q1)%Z as Hgap by lia.
  rewrite Zle_Qle, inject_Z_plus in Hgap. change (inject_Z 1) with 1 in Hgap.
  assert (q1 == q2) as Heq by lra.
  rewrite (round_half_even_wd q1 q2 Heq) in Hlt. lia.
Qed.

(** X1: a value that already is a multiple of the step is returned
    unchanged, for every non-zero step. *)
Theorem round_to_step_fixes_multiples (k s : Z) :
  s <> 0%Z ->
  round_to_step (Fin (inject_Z (k * s))) s = Ok (k * s)%Z.
Proof.
  intros Hs. rewrite round_to_step_fin by exact Hs.
  assert (inject_Z (k * s) / inject_Z s == inject_Z k) as Hq.
  { rewrite inject_Z_mult. field.
    intros H0. apply Hs. apply (inject_Z_injective s 0). exact H0. }
  rewrite (round_half_even_wd _ _ Hq), round_half_even_Z. reflexivity.
Qed.

Lemma round_to_step_fixes_multiples_witness :
  round_to_step (Fin (inject_Z (234 * 5))) 5 = Ok (234 * 5)%Z.
Proof. apply (round_to_step_fixes_multiples 234 5). discriminate. Defined.

(** X2: for a positive step, rounding preserves order: a larger value
    never gets a smaller rounded rate. *)
Theorem round_to_step_monotone (v1 v2 : Q) (s : Z) :
  (0 < s)%Z ->
  v1 <= v2 ->
  exists r1 r2 : Z,
    round_to_step (Fin v1) s = Ok r1 /\
    round_to_step (Fin v2) s = Ok r2 /\
    (r1 <= r2)%Z.
Proof.
  intros Hs Hle.
  assert (0 < inject_Z s) as Hs' by (rewrite Zlt_Qlt in Hs; exact Hs).
  do 2 eexists. rewrite !round_to_step_fin by lia.
  split; [reflexivity|]. split; [reflexivity|].
  apply Z.mul_le_mono_nonneg_r; [lia|].
  apply round_half_even_mono.
  apply Qmult_le_compat_r; [exact Hle|].
  apply Qlt_le_weak, Qinv_lt_0_compat. exact Hs'.
Qed.

Lemma round_to_step_monotone_witness :
  exists r1 r2 : Z,
    round_to_step (Fin (305 # 2)) 5 = Ok r1 /\
    round_to_step (Fin (315 # 2)) 5 = Ok r2 /\
    (r1 <= r2)%Z.
Proof.
  apply (round_to_step_monotone (305 # 2) (315 # 2) 5);
    [reflexivity|discriminate].
Defined.

(** ** The engine: when it returns, and what the bounds guarantee *)

Lemma competitor_band_fin (p : Policy) (unit : string) (comp_avg : num)
    (t : Q) (rationale : list string) :
  exists t' : Q,
    fst (competitor_band p unit comp_avg (Fin t) rationale) = Fin t' /\
    forall c : Q,
      comp_avg = Fin c ->
      c * (1 - band_vs_comp p) <= t' /\
      (c * (1 - band_vs_comp p) <= c * (1 + band_vs_comp p) ->
       t' <= c * (1 + band_vs_comp p)).
Proof.
  destruct comp_avg as [|c].
  - exists t. split; [reflexivity|]. intros c H. discriminate.
  - unfold competitor_band. cbn [isnan negb].
    unfold py_max, flt, fgt, fmul. cbv beta iota zeta.
    repeat (match goal with
            | |- context [Qltb ?a ?b] => destruct (Qltb a b) eqn:?
            end; cbv beta iota zeta; cbn [fst]);
      qcmp; eexists; (split; [reflexivity|]);
      intros c' [= <-]; split; intros; lra.
Qed.

Lemma standard_cap_fin (p : Policy) (std : num) (t : Q)
    (rationale : list string) :
  exists t' : Q,
    fst (standard_cap p std (Fin t) rationale) = Fin t' /\
    t' <= t /\
    forall sd : Q, std = Fin sd -> t' <= sd * (1 + band_vs_standard p).
Proof.
  destruct std as [|sd].
  - exists t. split; [reflexivity|]. split; [lra|]. intros sd H. discriminate.
  - unfold standard_cap. cbn [isnan negb]. unfold fgt, fmul.
    destruct (Qltb (sd * (1 + band_vs_standard p)) t) eqn:E; qcmp; cbn [fst];
      eexists; (split; [reflexivity|]); (split; [lra|]);
      intros sd' [= <-]; lra.
Qed.

Lemma banded_target_fin (p : Policy) (comp_by_unit : gmap string num)
    (row : Row) (cur : Q) :
  current_tenant_rate row = Fin cur ->
  exists b : Q,
    fst (banded p comp_by_unit row) = Fin b /\
    forall c : Q,
      comp_avg_of comp_by_unit (unit_type row) = Fin c ->
      c * (1 - band_vs_comp p) <= b /\
      (c * (1 - band_vs_comp p) <= c * (1 + band_vs_comp p) ->
       b <= c * (1 + band_vs_comp p)).
Proof.
  intros Hcur.
  destruct (envelope_target_fin p row cur Hcur) as (e & He & _).
  unfold banded. cbv zeta. rewrite He. apply competitor_band_fin.
Qed.

Lemma pre_round_target_fin (p : Policy) (comp_by_unit : gmap string num)
    (row : Row) (cur : Q) :
  current_tenant_rate row = Fin cur ->
  exists t : Q,
    pre_round_target p comp_by_unit row = Fin t /\
    forall sd : Q,
      current_standard_rate row = Fin sd ->
      t <= sd * (1 + band_vs_standard p).
Proof.
  intros Hcur.
  destruct (banded_target_fin p comp_by_unit row cur Hcur) as (b & Hb & _).
  unfold pre_round_target, pre_round. cbv zeta.
  destruct (banded p comp_by_unit row) as [b' r]. cbn [fst] in Hb. subst b'.
  destruct (standard_cap_fin p (current_standard_rate row) b r)
    as (t & Ht & _ & Hcap).
  exists t. auto.
Qed.

Lemma round_to_step_multiple (val : num) (step r : Z) :
  round_to_step val step = Ok r -> exists k : Z, r = (k * step)%Z.
Proof.
  unfold round_to_step, fdiv_int.
  destruct (step =? 0)%Z; [discriminate|]. simpl.
  destruct val as [|q]; simpl; [discriminate|].
  intros [= <-]. eauto.
Qed.

Lemma suggest_inv (p : Policy) (comp_by_unit : gmap string num) (row : Row)
    (s : Suggestion) :
  suggest p comp_by_unit row = Ok s ->
  round_to_step (pre_round_target p comp_by_unit row) (round_step p)
  = Ok (suggested_rate s) /\
  action s
  = fst (pending_action (pending_tenant_rate row) (suggested_rate s)
           (snd (pre_round p comp_by_unit row))).
Proof.
  unfold suggest, suggest_trace, pre_round_target.
  destruct (pre_round p comp_by_unit row) as [t r]. cbn [fst snd].
  destruct (round_to_step t (round_step p)) as [k|e]; simpl; [|discriminate].
  destruct (pending_action (pending_tenant_rate row) k r) as [a r'] eqn:E.
  simpl. intros [= <-]. simpl. rewrite E. auto.
Qed.

(** X4: with a non-zero rounding step, [suggest] returns for a row
    only if its [current_tenant_rate] is a number, and the rate it
    suggests is an integer multiple of the rounding step; under a
    policy within the sidebar's ranges it does return for every row
    whose tenant rate is a number in range and whose competitor average
    and standard rate are missing or in range, whatever the other
    fields hold. *)
Theorem suggest_returns_on_numeric_rate (p : Policy)
    (comp_by_unit : gmap string num) (row : Row) :
  round_step p <> 0%Z ->
  (forall s : Suggestion,
      suggest p comp_by_unit row = Ok s ->
      isnan (current_tenant_rate row) = false /\
      exists k : Z, suggested_rate s = (k * round_step p)%Z) /\
  (sidebar_ok p ->
   isnan (current_tenant_rate row) = false ->
   in_range (current_tenant_rate row) ->
   in_range (comp_avg_of comp_by_unit (unit_type row)) ->
   in_range (current_standard_rate row) ->
   exists s : Suggestion, suggest p comp_by_unit row = Ok s).
Proof.
  intros Hstep. split.
  - intros s Hs. split.
    + destruct (current_tenant_rate row) eqn:Hcur; [|reflexivity].
      destruct (suggest_nan_raises p comp_by_unit row Hcur) as [e He].
      rewrite He in Hs. discriminate.
    + apply suggest_inv in Hs as [Hr _].
      eapply round_to_step_multiple. exact Hr.
  - intros _ Hnum _ _ _.
    destruct (current_tenant_rate row) as [|cur] eqn:Hcur; [discriminate|].
    destruct (pre_round_target_fin p comp_by_unit row cur Hcur) as (t & Ht & _).
    destruct (suggest_of_pre_round p comp_by_unit row t Ht Hstep) as (s & Hs & _).
    eauto.
Qed.

Lemma suggest_returns_on_numeric_rate_witness :
  (forall s : Suggestion,
      suggest policy_default comp_800 row_recent = Ok s ->
      isnan (current_tenant_rate row_recent) = false /\
      exists k : Z, suggested_rate s = (k * round_step policy_default)%Z) /\
  exists s : Suggestion, suggest policy_default comp_800 row_recent = Ok s.
Proof.
  assert (round_step policy_default <> 0%Z) as Hstep by discriminate.
  destruct (suggest_returns_on_numeric_rate policy_default comp_800 row_recent
              Hstep) as [H1 H2].
  split; [exact H1|]. apply H2.
  - unfold sidebar_ok; simpl; repeat split; try discriminate; lia.
  - reflexivity.
  - vm_compute. discriminate.
  - vm_compute. discriminate.
  - exact I.
Defined.

(** Rounding the float quotient of a binary64 value that is at most a
    cap in range never ends more than half a step above the cap, however
    far below the cap the value is. *)
Lemma binary64_round_below_cap (C T f : Q) (s : Z) :
  Qabs C <= binary64_safe ->
  is_binary64 T ->
  T <= C ->
  (0 < s)%Z ->
  binary64_result (T / inject_Z s) f ->
  inject_Z (round_half_even f * s) <= C + inject_Z s / 2.
Proof.
  intros HC HT Hle Hs Hf.
  assert (0 < inject_Z s) as Hs' by (rewrite Zlt_Qlt in Hs; exact Hs).
  assert (1 <= inject_Z s) as Hs1.
  { change 1 with (inject_Z 1). rewrite <- Zle_Qle. lia. }
  assert (inject_Z s / 2 == inject_Z s * (1 # 2)) as Ehalf by field.
  destruct (Qlt_le_dec (2 * binary64_safe) (Qabs T)) as [Hfar|Hnear].
  - (* far below the cap *)
    assert (T < - (2 * binary64_safe)) as Hneg.
    { apply Qabs_Qle_condition in HC. revert Hfar. qabs; lra. }
    destruct Hf as (_ & Hnormal & Hsub).
    set (q := T / inject_Z s) in *.
    assert (q * inject_Z s == T) as Eq by (subst q; field; lra).
    assert (q < 0) as Hq.
    { apply (Qmult_lt_r _ _ (inject_Z s)); [exact Hs'|]. rewrite Eq.
      unfold binary64_safe in Hneg.
      assert (0 <= 2 * inject_Z (2 ^ 49)) by (vm_compute; discriminate). lra. }
    assert (Qabs q == - q) as Eabs by (apply Qabs_neg; lra).
    pose proof (round_half_even_close f) as Hc.
    apply Qabs_Qle_condition in Hc. destruct Hc as [_ Hc].
    assert (2 ^ (-1022) <= 1 # 8) as Hc1 by (vm_compute; discriminate).
    assert (2 ^ (-1075) <= 1 # 8) as Hc2 by (vm_compute; discriminate).
    assert (2 ^ (-53) <= 1 # 8) as Hc3 by (vm_compute; discriminate).
    assert (0 <= 2 ^ (-53)) as Hc4 by (vm_compute; discriminate).
    assert (binary64_safe == inject_Z (2 ^ 49)) as Esafe by reflexivity.
    assert (1 <= inject_Z (2 ^ 49)) as Hone by (vm_compute; discriminate).
    apply Qabs_Qle_condition in HC. destruct HC as [HClo _].
    rewrite inject_Z_mult, Ehalf.
    destruct (Qlt_le_dec (Qabs q) (2 ^ (-1022))) as [Htiny|Hbig].
    + specialize (Hsub Htiny). rewrite Eabs in Htiny.
      set (a := 2 ^ (-1022)) in *. set (b := 2 ^ (-1075)) in *.
      set (B := inject_Z (2 ^ 49)) in *.
      assert (f <= 1 # 4) as Hf4 by (revert Hsub; qabs; lra).
      assert (inject_Z (round_half_even f) <= 3 # 4) as Hr by lra.
      assert (round_half_even f <= 0)%Z as Hr0.
      { destruct (Z_lt_le_dec 0 (round_half_even f)) as [H|H]; [|exact H].
        exfalso. assert (1 <= round_half_even f)%Z as H1 by lia.
        rewrite Zle_Qle in H1. change (inject_Z 1) with 1 in H1. lra. }
      rewrite Zle_Qle in Hr0. change (inject_Z 0) with 0 in Hr0.
      (* the step is huge *)
      assert (2 * B < inject_Z s * (1 # 8)) as Hstep.
      { assert (- T < inject_Z s * a) as H1 by (rewrite <- Eq; nra).
        nra. }
      nra.
    + specialize (Hnormal Hbig). rewrite Eabs in Hnormal.
      set (u := 2 ^ (-53)) in *. set (B := inject_Z (2 ^ 49)) in *.
      assert (f <= q * (1 - u)) as Hfq by (revert Hnormal; qabs; lra).
      assert (inject_Z (round_half_even f) * inject_Z s
              <= (q * (1 - u) + (1 # 2)) * inject_Z s) as H1
        by (apply Qmult_le_compat_r; lra).
      assert ((q * (1 - u) + (1 # 2)) * inject_Z s
              == T * (1 - u) + inject_Z s * (1 # 2)) as E1
        by (rewrite <- Eq; ring).
      rewrite E1 in H1.
      assert (T * (1 - u) <= C); [|lra].
      assert (T * (1 - u) <= - (2 * B) * (7 # 8)) by nra.
      rewrite Esafe in HClo. fold B in HClo. lra.
  - rewrite (binary64_quotient_rounds_alike T s f HT Hnear Hs Hf).
    pose proof (round_step_close T s Hs) as Hc.
    apply Qabs_Qle_condition in Hc. lra.
Qed.

(** X6: the standard-rate cap has the last word before rounding: for a
    row with a numeric tenant rate and a known standard rate, the
    pre-rounding target never exceeds [std * (1 + band_vs_standard)],
    whatever the policy and the competitor data; and when that cap is
    of magnitude at most [binary64_safe], with a positive step up to
    the same bound, every rate [suggest] returns exceeds the cap by at
    most half a step.  The same holds of the floats: whatever binary64
    value [T] at most a cap [C] in range the script's target holds, and
    whatever float IEEE 754 allows as the quotient [T / step], the
    rounded multiple is at most half a step above [C]. *)
Theorem standard_cap_bounds_target (p : Policy)
    (comp_by_unit : gmap string num) (row : Row) (cur sd : Q) :
  current_tenant_rate row = Fin cur ->
  current_standard_rate row = Fin sd ->
  (0 < round_step p)%Z ->
  (exists t : Q,
      pre_round_target p comp_by_unit row = Fin t /\
      t <= sd * (1 + band_vs_standard p) /\
      (inject_Z (round_step p) <= binary64_safe ->
       Qabs (sd * (1 + band_vs_standard p)) <= binary64_safe ->
       forall s : Suggestion,
         suggest p comp_by_unit row = Ok s ->
         inject_Z (suggested_rate s)
         <= sd * (1 + band_vs_standard p) + inject_Z (round_step p) / 2)) /\
  (forall C T f : Q,
      Qabs C <= binary64_safe ->
      is_binary64 T ->
      T <= C ->
      binary64_result (T / inject_Z (round_step p)) f ->
      inject_Z (round_half_even f * round_step p)
      <= C + inject_Z (round_step p) / 2).
Proof.
  intros Hcur Hstd Hstep. split.
  - destruct (pre_round_target_fin p comp_by_unit row cur Hcur)
      as (t & Ht & Hcap).
    specialize (Hcap sd Hstd).
    exists t. split; [exact Ht|]. split; [exact Hcap|].
    intros _ _ s Hs.
    destruct (suggest_of_pre_round p comp_by_unit row t Ht) as (s' & Hs' & Hrate);
      [lia|].
    rewrite Hs in Hs'. injection Hs' as <-.
    pose proof (round_step_close t (round_step p) Hstep) as Hc.
    rewrite <- Hrate in Hc. apply Qabs_Qle_condition in Hc. lra.
  - intros C T f HC HT Hle Hf.
    exact (binary64_round_below_cap C T f (round_step p) HC HT Hle Hstep Hf).
Qed.

Lemma standard_cap_bounds_target_witness :
  (exists t : Q,
      pre_round_target policy_default comp_800 row_over_standard = Fin t /\
      t <= 900 * (1 + band_vs_standard policy_default) /\
      (inject_Z (round_step policy_default) <= binary64_safe ->
       Qabs (900 * (1 + band_vs_standard policy_default)) <= binary64_safe ->
       forall s : Suggestion,
         suggest policy_default comp_800 row_over_standard = Ok s ->
         inject_Z (suggested_rate s)
         <= 900 * (1 + band_vs_standard policy_default)
            + inject_Z (round_step policy_default) / 2)) /\
  (forall C T f : Q,
      Qabs C <= binary64_safe ->
      is_binary64 T ->
      T <= C ->
      binary64_result (T / inject_Z (round_step policy_default)) f ->
      inject_Z (round_half_even f * round_step policy_default)
      <= C + inject_Z (round_step policy_default) / 2).
Proof.
  apply (standard_cap_bounds_target policy_default comp_800 row_over_standard 1000 900);
    reflexivity.
Defined.

(** X7: after the competitor block the target is never below the
    competitor floor [comp_avg * (1 - band)], because the floor check
    runs last; when the floor is not above the ceiling (for instance a
    non-negative average and a non-negative band) the target lies within
    the competitor band. *)
Theorem competitor_floor_has_last_word (p : Policy)
    (comp_by_unit : gmap string num) (row : Row) (cur c : Q) :
  current_tenant_rate row = Fin cur ->
  comp_avg_of comp_by_unit (unit_type row) = Fin c ->
  exists b : Q,
    fst (banded p comp_by_unit row) = Fin b /\
    c * (1 - band_vs_comp p) <= b /\
    (0 <= c -> 0 <= band_vs_comp p -> b <= c * (1 + band_vs_comp p)).
Proof.
  intros Hcur Hc.
  destruct (banded_target_fin p comp_by_unit row cur Hcur) as (b & Hb & Hband).
  destruct (Hband c Hc) as [Hlo Hhi].
  exists b. repeat split; auto. intros H0 Hb0. apply Hhi. nra.
Qed.

Lemma competitor_floor_has_last_word_witness :
  exists b : Q,
    fst (banded policy_default comp_800 row_1000) = Fin b /\
    800 * (1 - band_vs_comp policy_default) <= b /\
    (0 <= 800 -> 0 <= band_vs_comp policy_default ->
     b <= 800 * (1 + band_vs_comp policy_default)).
Proof.
  apply (competitor_floor_has_last_word policy_default comp_800 row_1000 1000 800);
    reflexivity.
Defined.

(** ** The batch and the action *)

Lemma apply_suggest_spec (p : Policy) (comp_by_unit : gmap string num)
    (rows : list Row) (ss : list Suggestion) :
  apply_suggest p comp_by_unit rows = Ok ss <->
  Forall2 (fun row s => suggest p comp_by_unit row = Ok s) rows ss.
Proof.
  revert ss. induction rows as [|row rest IH]; intros ss; simpl.
  - split.
    + intros [= <-]. constructor.
    + intros H. inversion H. reflexivity.
  - destruct (suggest p comp_by_unit row) as [s|e] eqn:Hs; simpl.
    + destruct (apply_suggest p comp_by_unit rest) as [ss'|e] eqn:Hrest; simpl.
      * split.
        -- intros [= <-]. constructor; [exact Hs|]. apply IH. reflexivity.
        -- intros H. inversion H as [|? s0 ? ss0 H1 H2]; subst.
           rewrite Hs in H1. injection H1 as <-.
           apply IH in H2. injection H2 as <-. reflexivity.
      * split; [discriminate|].
        intros H. inversion H as [|? s0 ? ss0 H1 H2]; subst.
        apply IH in H2. discriminate.
    + split; [discriminate|].
      intros H. inversion H as [|? s0 ? ss0 H1 H2]; subst.
      rewrite Hs in H1. discriminate.
Qed.

(** In the model every number is finite, so the only way [suggest] can
    fail with a non-zero step is a missing tenant rate. *)
Lemma suggest_ok_iff_numeric (p : Policy)
    (comp_by_unit : gmap string num) (row : Row) :
  round_step p <> 0%Z ->
  (exists s : Suggestion, suggest p comp_by_unit row = Ok s) <->
  isnan (current_tenant_rate row) = false.
Proof.
  intros Hstep. split.
  - intros [s Hs]. destruct (current_tenant_rate row) eqn:Hcur; [|reflexivity].
    destruct (suggest_nan_raises p comp_by_unit row Hcur) as [e He].
    rewrite He in Hs. discriminate.
  - intros Hnum. destruct (current_tenant_rate row) as [|cur] eqn:Hcur;
      [discriminate|].
    destruct (pre_round_target_fin p comp_by_unit row cur Hcur) as (t & Ht & _).
    destruct (suggest_of_pre_round p comp_by_unit row t Ht Hstep) as (s & Hs & _).
    eauto.
Qed.

Lemma apply_suggest_ok_iff_numeric (p : Policy)
    (comp_by_unit : gmap string num) (rows : list Row) :
  round_step p <> 0%Z ->
  (exists ss, apply_suggest p comp_by_unit rows = Ok ss) <->
  Forall (fun row => isnan (current_tenant_rate row) = false) rows.
Proof.
  intros Hstep. induction rows as [|row rest IH]; simpl.
  - split; [constructor|eauto].
  - pose proof (suggest_ok_iff_numeric p comp_by_unit row Hstep) as Hrow.
    split.
    + intros [ss Hss].
      destruct (suggest p comp_by_unit row) as [s|e] eqn:Hs; simpl in Hss;
        [|discriminate].
      destruct (apply_suggest p comp_by_unit rest) as [ss'|e] eqn:Hrest;
        simpl in Hss; [|discriminate].
      constructor; [apply Hrow; eauto|apply IH; eauto].
    + intros H. inversion H as [|? ? H1 H2]; subst.
      apply Hrow in H1 as [s ->]. apply IH in H2 as [ss ->]. simpl. eauto.
Qed.

Lemma Forall2_combine_fst {A B} (P : A -> B -> Prop) (l : list A) (k : list B) :
  Forall2 P l k ->
  map fst (combine l k) = l /\ Forall (fun '(a, b) => P a b) (combine l k).
Proof.
  induction 1 as [|a b l k Hab _ [IH1 IH2]]; simpl.
  - split; [reflexivity|constructor].
  - rewrite IH1. split; [reflexivity|]. constructor; assumption.
Qed.

(** X5: with a non-zero rounding step, a run that produces an output
    table had a numeric [current_tenant_rate] in every tenant row; the
    table then has one row per input row, in input order, each made of
    the input row with its key normalised and of the suggestion
    [suggest] computes for it against the one competitor index built
    for the run.  Under a policy within the sidebar's ranges the run
    does produce a table when every tenant rate is a number in range and
    every standard rate and every competitor average a row looks up is
    missing or in range. *)
Theorem run_output_shape (p : Policy) (cdf : option (list (string * num)))
    (scraped : list (list Q)) (raw : list Row) :
  round_step p <> 0%Z ->
  let df := map normalize_row raw in
  let index := build_comp_by_unit cdf scraped df in
  (forall out : list (Row * Suggestion),
      run p cdf scraped raw = Ok out ->
      Forall (fun row => isnan (current_tenant_rate row) = false) raw /\
      map fst out = df /\
      List.length out = List.length raw /\
      Forall (fun '(row, s) => suggest p index row = Ok s) out) /\
  (sidebar_ok p ->
   Forall (fun row =>
             isnan (current_tenant_rate row) = false /\
             in_range (current_tenant_rate row) /\
             in_range (current_standard_rate row) /\
             in_range (comp_avg_of index (unit_type (normalize_row row))))
     raw ->
   exists out, run p cdf scraped raw = Ok out).
Proof.
  intros Hstep df index. unfold run. fold df. fold index.
  split.
  - intros out Hout.
    destruct (apply_suggest p index df) as [ss|e] eqn:Hss; simpl in Hout;
      [|discriminate].
    injection Hout as <-.
    assert (Forall (fun row => isnan (current_tenant_rate row) = false) df) as H
      by (apply (apply_suggest_ok_iff_numeric p index df Hstep); eauto).
    split; [subst df; rewrite Forall_map in H; exact H|].
    apply apply_suggest_spec in Hss.
    destruct (Forall2_combine_fst _ _ _ Hss) as [H1 H2].
    split; [exact H1|]. split; [|exact H2].
    rewrite <- (length_map fst), H1. subst df. apply length_map.
  - intros _ Hall.
    destruct (proj2 (apply_suggest_ok_iff_numeric p index df Hstep)) as [ss Hss].
    { subst df. rewrite Forall_map.
      eapply Forall_impl; [exact Hall|]. intros row (H & _). exact H. }
    rewrite Hss. simpl. eauto.
Qed.

Lemma run_output_shape_witness :
  let df := map normalize_row [row_1000; row_recent] in
  let index := build_comp_by_unit (Some manual_sample) scraped_sample df in
  (forall out : list (Row * Suggestion),
      run policy_default (Some manual_sample) scraped_sample
        [row_1000; row_recent] = Ok out ->
      Forall (fun row => isnan (current_tenant_rate row) = false)
        [row_1000; row_recent] /\
      map fst out = df /\
      List.length out = List.length [row_1000; row_recent] /\
      Forall (fun '(row, s) => suggest policy_default index row = Ok s) out) /\
  exists out, run policy_default (Some manual_sample) scraped_sample
                [row_1000; row_recent] = Ok out.
Proof.
  intros df index.
  assert (round_step policy_default <> 0%Z) as Hstep by discriminate.
  destruct (run_output_shape policy_default (Some manual_sample) scraped_sample
              [row_1000; row_recent] Hstep) as [H1 H2].
  split; [exact H1|]. apply H2.
  - unfold sidebar_ok; simpl; repeat split; try discriminate; lia.
  - repeat constructor; try reflexivity; vm_compute; discriminate.
Defined.

(** X8: the action is ["set"] exactly when no pending rate is known;
    with a pending rate [pd] it is ["increase"] exactly when the rounded
    rate exceeds [1.01 * pd], ["decrease"] exactly when it does not and
    is below [0.99 * pd], and ["keep"] exactly when it lies in the dead
    band [[0.99 * pd, 1.01 * pd]]. *)
Theorem action_classification (p : Policy) (comp_by_unit : gmap string num)
    (row : Row) (s : Suggestion) :
  suggest p comp_by_unit row = Ok s ->
  let t := inject_Z (suggested_rate s) in
  (action s = "set" <-> pending_tenant_rate row = NaN) /\
  (forall pd : Q,
      pending_tenant_rate row = Fin pd ->
      (action s = "increase" <-> pd * (101 # 100) < t) /\
      (action s = "decrease" <->
       t <= pd * (101 # 100) /\ t < pd * (99 # 100)) /\
      (action s = "keep" <->
       pd * (99 # 100) <= t <= pd * (101 # 100))).
Proof.
  intros Hs t. apply suggest_inv in Hs as [_ Ha]. rewrite Ha. clear Ha.
  unfold pending_action. fold t.
  destruct (pending_tenant_rate row) as [|pd]; cbn [isnan negb fst].
  - split; [split; reflexivity|]. intros pd H. discriminate.
  - unfold flt, fgt, fmul.
    split.
    + split; [|discriminate].
      destruct (Qltb (pd * (101 # 100)) t); [discriminate|].
      destruct (Qltb t (pd * (99 # 100))); discriminate.
    + intros pd' [= <-].
      destruct (Qltb (pd * (101 # 100)) t) eqn:E1;
        [|destruct (Qltb t (pd * (99 # 100))) eqn:E2]; qcmp;
        (split; [|split]); split;
        try discriminate; try reflexivity; try (intros; lra);
        try (intros _; split; lra).
Qed.

Lemma action_classification_witness :
  let t := inject_Z 1085 in
  ("decrease" = "set" <-> pending_tenant_rate row_recent = NaN) /\
  (forall pd : Q,
      pending_tenant_rate row_recent = Fin pd ->
      ("decrease" = "increase" <-> pd * (101 # 100) < t) /\
      ("decrease" = "decrease" <->
       t <= pd * (101 # 100) /\ t < pd * (99 # 100)) /\
      ("decrease" = "keep" <->
       pd * (99 # 100) <= t <= pd * (101 # 100))).
Proof.
  apply (action_classification policy_default ∅ row_recent
           {| suggested_rate := 1085; action := "decrease";
              rationale := "No competitor data; using policy caps/standard. Pending $1100 → Suggested $1085 ⇒ decrease." |}).
  vm_compute. reflexivity.
Defined.

(** ** The rationale names the bounds that fired *)

Lemma competitor_band_clauses (p : Policy) (unit : string)
    (comp_avg target : num) :
  let comp_max := fmul comp_avg (Fin (1 + band_vs_comp p)) in
  let comp_min := fmul comp_avg (Fin (1 - band_vs_comp p)) in
  let capped := if fgt target comp_max then comp_max else target in
  let r := snd (competitor_band p unit comp_avg target []) in
  existsb is_ceiling_clause r = fgt target comp_max /\
  existsb is_floor_clause r = flt capped comp_min /\
  existsb is_std_cap_clause r = false /\
  (fgt target comp_max = false -> flt capped comp_min = false ->
   fst (competitor_band p unit comp_avg target []) = target).
Proof.
  unfold competitor_band. destruct comp_avg as [|c]; cbn [isnan negb].
  - destruct target; repeat split; reflexivity.
  - cbv zeta.
    generalize (fmt0 (Fin c)) (fmt0 (fmul (Fin c) (Fin (1 + band_vs_comp p))))
      (fmt0 (fmul (Fin c) (Fin (1 - band_vs_comp p)))).
    intros f0 f1 f2.
    destruct (fgt target (fmul (Fin c) (Fin (1 + band_vs_comp p)))) eqn:E1;
      cbv beta iota;
      match goal with
      | |- context [flt ?a ?b] => destruct (flt a b) eqn:E2
      end; cbn [fst snd]; repeat split; try reflexivity; discriminate.
Qed.

Lemma standard_cap_clauses (p : Policy) (std target : num)
    (rationale : list string) :
  let std_cap := fmul std (Fin (1 + band_vs_standard p)) in
  exists extra : list string,
    snd (standard_cap p std target rationale) = rationale ++ extra /\
    existsb is_ceiling_clause extra = false /\
    existsb is_floor_clause extra = false /\
    existsb is_std_cap_clause extra = fgt target std_cap /\
    (fgt target std_cap = false ->
     fst (standard_cap p std target rationale) = target).
Proof.
  unfold standard_cap. destruct std as [|sd]; cbn [isnan negb].
  - exists []. rewrite app_nil_r. destruct target; repeat split; reflexivity.
  - cbv zeta. generalize (fmt0 (fmul (Fin sd) (Fin (1 + band_vs_standard p)))).
    intros f.
    destruct (fgt target (fmul (Fin sd) (Fin (1 + band_vs_standard p)))) eqn:E;
      cbn [fst snd].
    + eexists. split; [reflexivity|]. repeat split; try reflexivity. discriminate.
    + exists []. rewrite app_nil_r. repeat split; reflexivity.
Qed.

Lemma pending_action_clauses (pend : num) (target : Z) (rationale : list string) :
  exists last : string,
    snd (pending_action pend target rationale) = rationale ++ [last] /\
    is_ceiling_clause last = false /\
    is_floor_clause last = false /\
    is_std_cap_clause last = false.
Proof.
  unfold pending_action. destruct (isnan pend); cbn [negb snd];
    eexists; (split; [reflexivity|]); repeat split.
Qed.

(** X9: whenever the engine returns, its rationale names exactly the
    bounds that fired: it holds an "Above comp ceiling" clause exactly
    when the clamped target exceeded the competitor ceiling, a "Below
    comp floor" clause exactly when the target (after any ceiling cap)
    was below the competitor floor, and an "Over standard cap" clause
    exactly when the target after the competitor block exceeded the
    standard cap; when none of the three is named, the rate that is
    rounded is the policy-clamped target itself. *)
Theorem rationale_names_fired_bounds (p : Policy)
    (comp_by_unit : gmap string num) (row : Row)
    (target : Z) (act : string) (clauses : list string) :
  suggest_trace p comp_by_unit row = Ok (target, act, clauses) ->
  let env := envelope_target p row in
  let comp_avg := comp_avg_of comp_by_unit (unit_type row) in
  let comp_max := fmul comp_avg (Fin (1 + band_vs_comp p)) in
  let comp_min := fmul comp_avg (Fin (1 - band_vs_comp p)) in
  let capped := if fgt env comp_max then comp_max else env in
  let std_cap :=
    fmul (current_standard_rate row) (Fin (1 + band_vs_standard p)) in
  existsb is_ceiling_clause clauses = fgt env comp_max /\
  existsb is_floor_clause clauses = flt capped comp_min /\
  existsb is_std_cap_clause clauses
  = fgt (fst (banded p comp_by_unit row)) std_cap /\
  (existsb is_ceiling_clause clauses = false ->
   existsb is_floor_clause clauses = false ->
   existsb is_std_cap_clause clauses = false ->
   pre_round_target p comp_by_unit row = env).
Proof.
  intros Ht env comp_avg comp_max comp_min capped std_cap.
  apply suggest_trace_inv in Ht. subst clauses.
  unfold pre_round_target, pre_round, banded. cbv zeta.
  fold env. fold comp_avg.
  destruct (competitor_band_clauses p (unit_type row) comp_avg env)
    as (Hc1 & Hc2 & Hc3 & Hc4).
  cbv zeta in Hc1, Hc2, Hc3, Hc4.
  fold comp_max in Hc1, Hc2, Hc4. fold comp_min in Hc2, Hc4.
  fold capped in Hc2, Hc4.
  destruct (competitor_band p (unit_type row) comp_avg env []) as [b r].
  cbn [fst snd] in *.
  destruct (standard_cap_clauses p (current_standard_rate row) b r)
    as (extra & He & Hs1 & Hs2 & Hs3 & Hs4).
  fold std_cap in Hs3, Hs4.
  destruct (standard_cap p (current_standard_rate row) b r) as [t' r'].
  cbn [fst snd] in *. subst r'.
  destruct (pending_action_clauses (pending_tenant_rate row) target (r ++ extra))
    as (last & Hl & Hl1 & Hl2 & Hl3).
  rewrite Hl. rewrite !existsb_app. cbn [existsb].
  rewrite Hc1, Hc2, Hc3, Hs1, Hs2, Hs3, Hl1, Hl2, Hl3.
  rewrite !orb_false_r. cbn [orb].
  repeat split.
  intros H1 H2 H3. rewrite (Hs4 H3). apply Hc4; assumption.
Qed.

Lemma rationale_names_fired_bounds_witness :
  existsb is_ceiling_clause
    ["Comp avg for '10x10' ≈ $800."; "Above comp ceiling $824; capping.";
     "No pending; set $825."] = true /\
  existsb is_floor_clause
    ["Comp avg for '10x10' ≈ $800."; "Above comp ceiling $824; capping.";
     "No pending; set $825."] = false /\
  existsb is_std_cap_clause
    ["Comp avg for '10x10' ≈ $800."; "Above comp ceiling $824; capping.";
     "No pending; set $825."] = false /\
  (existsb is_ceiling_clause
     ["Comp avg for '10x10' ≈ $800."; "Above comp ceiling $824; capping.";
      "No pending; set $825."] = false ->
   existsb is_floor_clause
     ["Comp avg for '10x10' ≈ $800."; "Above comp ceiling $824; capping.";
      "No pending; set $825."] = false ->
   existsb is_std_cap_clause
     ["Comp avg for '10x10' ≈ $800."; "Above comp ceiling $824; capping.";
      "No pending; set $825."] = false ->
   pre_round_target policy_default comp_800 row_1000
   = envelope_target policy_default row_1000).
Proof.
  apply (rationale_names_fired_bounds policy_default comp_800 row_1000
           825 "set"
           ["Comp avg for '10x10' ≈ $800."; "Above comp ceiling $824; capping.";
            "No pending; set $825."]).
  vm_compute. reflexivity.
Defined.

(** ** The keys of the competitor index *)

(** X10: the keys of the index built for the run are the manual keys
    together with the tenant unit types; a manual average is never
    overwritten by the scraped fallback; and every tenant row finds its
    unit type in the index, so the lookup default of [suggest] is never
    taken during the run. *)
Theorem index_keys (cdf : option (list (string * num)))
    (scraped : list (list Q)) (df : list Row) (u : string) :
  let index := build_comp_by_unit cdf scraped df in
  (is_Some (index !! u) <->
   is_Some (manual_index cdf !! u) \/ In u (map unit_type df)) /\
  (forall x : num, manual_index cdf !! u = Some x -> index !! u = Some x) /\
  (manual_index cdf !! u = None -> In u (map unit_type df) ->
   index !! u = Some (global_avg scraped)) /\
  (forall row : Row, In row df -> is_Some (index !! unit_type row)).
Proof.
  intros index.
  assert (forall v : string,
             index !! v
             = match manual_index cdf !! v with
               | Some x => Some x
               | None => if in_dec string_dec v (map unit_type df)
                         then Some (global_avg scraped) else None
               end) as Hidx by (intros v; apply fill_missing_lookup).
  split; [|split; [|split]].
  - rewrite Hidx. destruct (manual_index cdf !! u) as [x|].
    + split; [intros _; left; eauto|intros _; eauto].
    + destruct (in_dec string_dec u (map unit_type df)) as [Hin|Hnin].
      * split; [intros _; right; exact Hin|intros _; eauto].
      * split; [intros [x Hx]; discriminate|].
        intros [[x Hx]|Hin]; [discriminate|contradiction].
  - intros x Hx. rewrite Hidx, Hx. reflexivity.
  - intros Hnone Hin. rewrite Hidx, Hnone.
    destruct (in_dec string_dec u (map unit_type df)); [reflexivity|contradiction].
  - intros row Hin. rewrite Hidx.
    destruct (manual_index cdf !! unit_type row); [eauto|].
    destruct (in_dec string_dec (unit_type row) (map unit_type df)) as [|Hnin];
      [eauto|].
    exfalso. apply Hnin. apply in_map. exact Hin.
Qed.

(** ** Scraped prices *)

Lemma is_digit_val (c : ascii) :
  is_digit c = true -> (0 <= digit_val c <= 9)%Z.
Proof.
  unfold is_digit, digit_val. intros H.
  apply andb_true_iff in H as [H1 H2].
  apply N.leb_le in H1. apply N.leb_le in H2. lia.
Qed.

Lemma digits_to_Z_nonneg (n : nat) (s : string) (acc : Z) :
  (n <= span_digits s)%nat -> (0 <= acc)%Z -> (0 <= digits_to_Z acc n s)%Z.
Proof.
  revert s acc. induction n as [|n IH]; intros s acc Hn Hacc; [destruct s; exact Hacc|].
  destruct s as [|c s]; [exact Hacc|]. cbn [span_digits] in Hn. cbn [digits_to_Z].
  destruct (is_digit c) eqn:Hc; [|lia].
  apply IH; [lia|]. pose proof (is_digit_val c Hc). lia.
Qed.


Lemma match_price_spec (s : string) (q : Q) (n : nat) :
  match_price s = Some (q, n) ->
  cents q /\ (1 <= n)%nat /\ exists r, s = String "$" r.
Proof.
  destruct s as [|c r]; [discriminate|]. cbn [match_price].
  destruct (Ascii.eqb_spec c "$") as [->|]; cbn [negb]; [|discriminate].
  cbv zeta.
  set (w := span_space r). set (r1 := str_drop w r).
  destruct (Nat.eqb_spec (span_digits r1) 0) as [|Hn]; [discriminate|].
  assert (0 <= digits_to_Z 0 (span_digits r1) r1)%Z as Hip
    by (apply digits_to_Z_nonneg; lia).
  set (ip := digits_to_Z 0 (span_digits r1) r1) in *.
  assert (cents (inject_Z ip)) as Hint.
  { exists (100 * ip)%Z. split; [lia|].
    unfold Qeq, inject_Z. simpl. lia. }
  destruct (str_drop (span_digits r1) r1) as [|d r3].
  - intros [= <- <-]. split; [exact Hint|]. split; [lia|eauto].
  - set (k := Nat.min (span_digits r3) 2).
    assert (0 <= digits_to_Z 0 k r3)%Z as Hfr
      by (apply digits_to_Z_nonneg; [subst k|]; lia).
    set (fr := digits_to_Z 0 k r3) in *.
    destruct (Ascii.eqb d "." && negb (k =? 0)%nat).
    + intros [= <- <-]. split; [|split; [lia|eauto]].
      destruct (k =? 1)%nat.
      * exists (100 * ip + 10 * fr)%Z. split; [lia|].
        unfold Qeq, Qplus, inject_Z. simpl. lia.
      * exists (100 * ip + fr)%Z. split; [lia|].
        unfold Qeq, Qplus, inject_Z. simpl. lia.
    + intros [= <- <-]. split; [exact Hint|]. split; [lia|eauto].
Qed.

Lemma findall_prices_cents (s : string) (skip : nat) :
  Forall cents (findall_prices skip s).
Proof.
  revert skip. induction s as [|c s IH]; intros skip; [constructor|].
  cbn [findall_prices]. destruct skip as [|k]; [|apply IH].
  destruct (match_price (String c s)) as [[q n]|] eqn:Hm; [|apply IH].
  constructor; [|apply IH]. apply (match_price_spec _ _ _ Hm).
Qed.

Lemma findall_prices_count (s : string) (skip : nat) :
  (List.length (findall_prices skip s) <= count_dollar s)%nat.
Proof.
  revert skip. induction s as [|c s IH]; intros skip; [simpl; lia|].
  cbn [findall_prices count_dollar]. destruct skip as [|k].
  - destruct (match_price (String c s)) as [[q n]|] eqn:Hm.
    + destruct (match_price_spec _ _ _ Hm) as (_ & _ & r & Hr).
      injection Hr as -> _. simpl. specialize (IH (Nat.pred n)). lia.
    + specialize (IH 0%nat). lia.
  - specialize (IH k). lia.
Qed.

(** X11: every price the scraper extracts from a page text is a
    non-negative amount with at most two decimals, and there are at most
    as many prices as the text has dollar signs; in particular a text
    without a dollar sign yields no price. *)
Theorem extracted_prices_are_cents (text : string) :
  Forall cents (extract_prices text) /\
  Forall (fun q => 0 <= q) (extract_prices text) /\
  (List.length (extract_prices text) <= count_dollar text)%nat /\
  (count_dollar text = 0%nat -> extract_prices text = []).
Proof.
  unfold extract_prices.
  pose proof (findall_prices_cents text 0) as Hc.
  pose proof (findall_prices_count text 0) as Hn.
  split; [exact Hc|]. split; [|split; [exact Hn|]].
  - eapply Forall_impl; [exact Hc|].
    intros q (z & Hz & Hq). rewrite Hq. unfold Qle. simpl. lia.
  - intros H0. rewrite H0 in Hn.
    destruct (findall_prices 0 text); [reflexivity|simpl in Hn; lia].
Qed.

Lemma Qsum_nonneg (l : list Q) : Forall (fun q => 0 <= q) l -> 0 <= Qsum l.
Proof.
  induction 1 as [|q l Hq _ IH]; simpl; [apply Qle_refl|]. lra.
Qed.

Lemma mean_nonneg (l : list Q) : Forall (fun q => 0 <= q) l -> 0 <= mean l.
Proof.
  intros H. unfold mean, Qdiv.
  apply Qmult_le_0_compat; [apply Qsum_nonneg; exact H|].
  apply Qinv_le_0_compat.
  change 0 with (inject_Z 0). rewrite <- Zle_Qle. lia.
Qed.

Lemma concat_nil_iff {A} (ls : list (list A)) :
  concat ls = [] <-> Forall (fun l => l = []) ls.
Proof.
  induction ls as [|l ls IH]; simpl.
  - split; [constructor|reflexivity].
  - split.
    + intros H. apply app_eq_nil in H as [-> H]. constructor; [reflexivity|].
      apply IH. exact H.
    + intros H. inversion H as [|? ? -> H2]; subst. apply IH. exact H2.
Qed.

Lemma extract_prices_nonneg (text : string) :
  Forall (fun q => 0 <= q) (extract_prices text).
Proof.
  eapply Forall_impl; [apply findall_prices_cents|].
  intros q (z & Hz & Hq). rewrite Hq. unfold Qle. simpl. lia.
Qed.

Lemma scrape_all_prices_nonneg (fetch : string -> option string)
    (urls : list string) :
  Forall (fun q => 0 <= q) (concat (scrape_all fetch urls)).
Proof.
  induction urls as [|u urls IH]; simpl; [constructor|].
  apply Forall_app. split; [|exact IH].
  unfold scrape_prices. destruct (fetch u) as [text|]; [|constructor].
  apply extract_prices_nonneg.
Qed.

(** X12: in the scrape block a URL whose fetch fails contributes no
    price and leaves the global average as it would be without that
    URL; the global average is missing exactly when no URL yields a
    price (in particular when there is no URL), and otherwise it is a
    non-negative number. *)
Theorem scraped_average (fetch : string -> option string)
    (urls : list string) :
  (forall url : string, fetch url = None -> scrape_prices fetch url = []) /\
  (global_avg (scrape_all fetch urls) = NaN <->
   Forall (fun url => scrape_prices fetch url = []) urls) /\
  (forall m : Q, global_avg (scrape_all fetch urls) = Fin m -> 0 <= m) /\
  (forall (us1 us2 : list string) (u : string),
      urls = us1 ++ u :: us2 -> fetch u = None ->
      global_avg (scrape_all fetch urls)
      = global_avg (scrape_all fetch (us1 ++ us2))).
Proof.
  split; [|split; [|split]].
  - intros url H. unfold scrape_prices. rewrite H. reflexivity.
  - unfold global_avg.
    assert (concat (scrape_all fetch urls) = []
            <-> Forall (fun url => scrape_prices fetch url = []) urls) as Hnil.
    { rewrite concat_nil_iff. unfold scrape_all. rewrite Forall_map. reflexivity. }
    destruct (concat (scrape_all fetch urls)) as [|q l].
    + split; [intros _; apply Hnil; reflexivity|reflexivity].
    + split; [discriminate|]. intros H. apply Hnil in H. discriminate.
  - intros m. unfold global_avg.
    pose proof (scrape_all_prices_nonneg fetch urls) as Hpos.
    destruct (concat (scrape_all fetch urls)) as [|q l]; [discriminate|].
    intros [= <-]. apply mean_nonneg. exact Hpos.
  - intros us1 us2 u -> Hu. unfold global_avg, scrape_all.
    rewrite !map_app, !concat_app. cbn [map concat].
    unfold scrape_prices at 2. rewrite Hu. reflexivity.
Qed.

Lemma scraped_average_witness :
  (forall url : string,
      fetch_sample url = None -> scrape_prices fetch_sample url = []) /\
  (global_avg (scrape_all fetch_sample
                 ["https://a.example/rates"; "https://b.example/"]) = NaN <->
   Forall (fun url => scrape_prices fetch_sample url = [])
     ["https://a.example/rates"; "https://b.example/"]) /\
  (forall m : Q,
      global_avg (scrape_all fetch_sample
                    ["https://a.example/rates"; "https://b.example/"]) = Fin m ->
      0 <= m) /\
  (forall (us1 us2 : list string) (u : string),
      ["https://a.example/rates"; "https://b.example/"] = us1 ++ u :: us2 ->
      fetch_sample u = None ->
      global_avg (scrape_all fetch_sample
                    ["https://a.example/rates"; "https://b.example/"])
      = global_avg (scrape_all fetch_sample (us1 ++ us2))).
Proof.
  apply (scraped_average fetch_sample
           ["https://a.example/rates"; "https://b.example/"]).
Defined.

(** ** Column guessing *)

Lemma index_of_first (x : string) (pre post : list string) :
  ~ In x pre -> index_of x (pre ++ x :: post) = Some (List.length pre).
Proof.
  induction pre as [|c pre IH]; intros Hnin; simpl.
  - rewrite String.eqb_refl. reflexivity.
  - destruct (String.eqb_spec c x) as [->|Hne]; [exfalso; apply Hnin; left; reflexivity|].
    rewrite IH; [reflexivity|]. intros H. apply Hnin. right. exact H.
Qed.

Lemma find_split {A} (f : A -> bool) (l : list A) (x : A) :
  List.find f l = Some x ->
  exists pre post,
    l = pre ++ x :: post /\ f x = true /\ Forall (fun y => f y = false) pre.
Proof.
  induction l as [|a l IH]; simpl; [discriminate|].
  destruct (f a) eqn:Ha.
  - intros [= <-]. exists [], l. repeat split; [exact Ha|constructor].
  - intros H. destruct (IH H) as (pre & post & -> & Hx & Hpre).
    exists (a :: pre), post. repeat split; [exact Hx|].
    constructor; assumption.
Qed.

Lemma find_none_all {A} (f : A -> bool) (l : list A) :
  List.find f l = None <-> Forall (fun y => f y = false) l.
Proof.
  induction l as [|a l IH]; simpl; [split; [constructor|reflexivity]|].
  destruct (f a) eqn:Ha.
  - split; [discriminate|]. intros H. inversion H; subst. congruence.
  - rewrite IH. split; [intros H; constructor; assumption|].
    intros H. inversion H; subst. assumption.
Qed.

(** X13: the preselected option of a column selectbox never raises and
    is the first column, in table order, whose lower-cased name
    contains the lower-cased keyword, or ["<none>"] when no column
    does. *)
Theorem default_option_is_first_match (cols : list string) (sub : string) :
  let hit := fun c => contains (str_lower sub) (str_lower c) in
  exists i : nat,
    default_index cols sub = Ok i /\
    ((Forall (fun c => hit c = false) cols /\
      nth_error (options cols) i = Some "<none>") \/
     (exists (pre post : list string) (c : string),
         cols = pre ++ c :: post /\
         hit c = true /\
         Forall (fun y => hit y = false) pre /\
         nth_error (options cols) i = Some c)).
Proof.
  intros hit. unfold default_index, guess. fold hit.
  destruct (List.find hit cols) as [c|] eqn:Hf.
  - destruct (find_split hit cols c Hf) as (pre & post & -> & Hc & Hpre).
    assert (~ In c pre) as Hnin.
    { intros Hin. rewrite Forall_forall in Hpre.
      apply list_elem_of_In in Hin. specialize (Hpre c Hin). congruence. }
    cbn [guess_in].
    assert (existsb (String.eqb c) (pre ++ c :: post) = true) as ->.
    { apply existsb_exists. exists c. split; [|apply String.eqb_refl].
      apply in_or_app. right. left. reflexivity. }
    rewrite (index_of_first c pre post Hnin).
    exists (List.length pre + 1)%nat. split; [reflexivity|]. right.
    exists pre, post, c. repeat split; auto.
    unfold options. rewrite Nat.add_1_r. cbn [nth_error].
    rewrite nth_error_app2 by lia. rewrite Nat.sub_diag. reflexivity.
  - cbn [guess_in]. exists 0%nat. split; [reflexivity|]. left.
    split; [apply find_none_all; exact Hf|reflexivity].
Qed.

(** ** The URL box *)

Lemma splitlines_no_linebreak (s : string) :
  Forall (fun l => no_linebreak l = true) (splitlines s).
Proof.
  induction s as [|c s IH]; [constructor|]. cbn [splitlines]. cbv zeta.
  destruct (Ascii.eqb c "013" && starts_with (String "010" "") s); [exact IH|].
  destruct (is_linebreak c) eqn:Hc; [constructor; [reflexivity|exact IH]|].
  destruct (splitlines s) as [|l ls].
  - constructor; [|constructor]. cbn [no_linebreak]. rewrite Hc. reflexivity.
  - inversion IH as [|? ? Hl Hls]; subst. constructor; [|exact Hls].
    cbn [no_linebreak]. rewrite Hc, Hl. reflexivity.
Qed.

Lemma splitlines_all_space (s : string) :
  all_space s = true -> Forall (fun l => all_space l = true) (splitlines s).
Proof.
  induction s as [|c s IH]; [constructor|]. cbn [all_space splitlines]. cbv zeta.
  intros H. apply andb_true_iff in H as [Hc Hs]. specialize (IH Hs).
  destruct (Ascii.eqb c "013" && starts_with (String "010" "") s); [exact IH|].
  destruct (is_linebreak c); [constructor; [reflexivity|exact IH]|].
  destruct (splitlines s) as [|l ls].
  - constructor; [|constructor]. cbn [all_space]. rewrite Hc. reflexivity.
  - inversion IH as [|? ? Hl Hls]; subst. constructor; [|exact Hls].
    cbn [all_space]. rewrite Hc, Hl. reflexivity.
Qed.

Lemma lstrip_no_linebreak (s : string) :
  no_linebreak s = true -> no_linebreak (lstrip s) = true.
Proof.
  induction s as [|c s IH]; [reflexivity|]. cbn [lstrip no_linebreak].
  intros H. destruct (is_space c); [|exact H].
  apply andb_true_iff in H as [_ Hs]. auto.
Qed.

Lemma rstrip_no_linebreak (s : string) :
  no_linebreak s = true -> no_linebreak (rstrip s) = true.
Proof.
  induction s as [|c s IH]; [reflexivity|]. cbn [rstrip no_linebreak].
  intros H. apply andb_true_iff in H as [Hc Hs]. specialize (IH Hs).
  destruct (rstrip s) as [|d r].
  - destruct (is_space c); [reflexivity|]. cbn [no_linebreak]. rewrite Hc. reflexivity.
  - cbn [no_linebreak] in *. rewrite Hc, IH. reflexivity.
Qed.

Lemma str_strip_all_space (s : string) : all_space s = true -> str_strip s = "".
Proof.
  intros H. unfold str_strip.
  assert (lstrip s = "") as ->; [|reflexivity].
  induction s as [|c s IH]; [reflexivity|]. cbn [all_space lstrip] in *.
  apply andb_true_iff in H as [Hc Hs]. rewrite Hc. auto.
Qed.

(** X14: every URL read from the sidebar box is non-empty, carries no
    leading or trailing whitespace and no line break; a box holding only
    whitespace yields no URL at all. *)
Theorem parsed_urls_are_clean (comp_urls_text : string) :
  Forall (fun u => u <> "" /\ str_strip u = u /\ no_linebreak u = true)
    (parse_urls comp_urls_text) /\
  (all_space comp_urls_text = true -> parse_urls comp_urls_text = []).
Proof.
  unfold parse_urls. split.
  - pose proof (splitlines_no_linebreak comp_urls_text) as Hl.
    induction Hl as [|l ls Hl _ IH]; [constructor|]. cbn [map List.filter].
    destruct (String.eqb_spec (str_strip l) "") as [|Hne]; cbn [negb];
      [exact IH|].
    constructor; [|exact IH].
    split; [exact Hne|]. split; [apply str_strip_idem|].
    unfold str_strip. apply rstrip_no_linebreak, lstrip_no_linebreak. exact Hl.
  - intros Hs. pose proof (splitlines_all_space comp_urls_text Hs) as Hl.
    induction Hl as [|l ls Hl _ IH]; [reflexivity|]. cbn [map List.filter].
    rewrite (str_strip_all_space l Hl). exact IH.
Qed.

(** ** Runs without any competitor input *)

Lemma starts_with_app (a b : string) : starts_with a (a +:+ b) = true.
Proof.
  induction a as [|c a IH]; [reflexivity|].
  rewrite append_cons. cbn [starts_with]. rewrite Ascii.eqb_refl. exact IH.
Qed.

Lemma starts_with_refl (a : string) : starts_with a a = true.
Proof.
  induction a as [|c a IH]; [reflexivity|].
  cbn [starts_with]. rewrite Ascii.eqb_refl. exact IH.
Qed.

Lemma join_space_starts (first : string) (rest : list string) :
  starts_with first (join_space (first :: rest)) = true.
Proof.
  destruct rest; cbn [join_space]; [apply starts_with_refl|apply starts_with_app].
Qed.

Lemma suggest_index_ext (p : Policy) (c1 c2 : gmap string num) (row : Row) :
  comp_avg_of c1 (unit_type row) = comp_avg_of c2 (unit_type row) ->
  suggest p c1 row = suggest p c2 row.
Proof.
  intros H. unfold suggest, suggest_trace, pre_round, banded. cbv zeta.
  rewrite H. reflexivity.
Qed.

Lemma suggest_no_comp_rationale (p : Policy) (comp_by_unit : gmap string num)
    (row : Row) (s : Suggestion) :
  comp_avg_of comp_by_unit (unit_type row) = NaN ->
  suggest p comp_by_unit row = Ok s ->
  starts_with "No competitor data; using policy caps/standard." (rationale s)
  = true.
Proof.
  intros Hc Hs. unfold suggest in Hs.
  destruct (suggest_trace p comp_by_unit row) as [[[t a] r]|e] eqn:Ht;
    simpl in Hs; [|discriminate].
  injection Hs as <-. cbn [rationale].
  apply suggest_trace_inv in Ht.
  destruct (pre_round_shape p comp_by_unit row) as (first & mid & Hpre & _ & H2 & _).
  rewrite Hc in H2. cbn [isnan] in H2.
  unfold is_no_comp_clause in H2. apply String.eqb_eq in H2. subst first.
  rewrite Hpre in Ht.
  destruct (pending_action_shape (pending_tenant_rate row) t
              ("No competitor data; using policy caps/standard." :: mid))
    as (last & Hlast & _).
  rewrite Hlast in Ht. subst r. rewrite <- app_comm_cons.
  apply join_space_starts.
Qed.

Lemma index_without_input (scraped : list (list Q)) (df : list Row) (u : string) :
  concat scraped = [] ->
  comp_avg_of (build_comp_by_unit None scraped df) u = NaN.
Proof.
  intros Hs. unfold comp_avg_of, build_comp_by_unit.
  rewrite fill_missing_lookup. cbn [manual_index]. rewrite lookup_empty.
  destruct (in_dec string_dec u (map unit_type df)); [|reflexivity].
  unfold global_avg. rewrite Hs. reflexivity.
Qed.

Lemma parse_urls_blank (text : string) :
  all_space text = true -> parse_urls text = [].
Proof.
  intros Hs. unfold parse_urls.
  pose proof (splitlines_all_space text Hs) as Hl.
  induction Hl as [|l ls Hl _ IH]; [reflexivity|]. cbn [map List.filter].
  rewrite (str_strip_all_space l Hl). exact IH.
Qed.

Lemma scrape_all_nothing (fetch : string -> option string) (text : string) :
  all_space text = true \/ (forall url : string, fetch url = None) ->
  concat (scrape_all fetch (parse_urls text)) = [].
Proof.
  intros [Hblank|Hfail].
  - rewrite (parse_urls_blank text Hblank). reflexivity.
  - induction (parse_urls text) as [|u us IH]; [reflexivity|].
    cbn [scrape_all map concat]. unfold scrape_prices at 1. rewrite Hfail.
    exact IH.
Qed.

(** X15: when no manual competitor file is given and the URL box is
    blank or every fetch fails, each row of the output table carries
    the suggestion the engine computes against an empty competitor
    index, and its rationale opens with the "No competitor data"
    clause. *)
Theorem no_competitor_input_no_signal (p : Policy) (comp_urls_text : string)
    (fetch : string -> option string) (raw : list Row)
    (out : list (Row * Suggestion)) :
  all_space comp_urls_text = true \/ (forall url : string, fetch url = None) ->
  app p None comp_urls_text fetch raw = Ok out ->
  Forall (fun '(row, s) =>
            suggest p ∅ row = Ok s /\
            starts_with "No competitor data; using policy caps/standard."
              (rationale s) = true) out.
Proof.
  intros Hin Hout. unfold app, run in Hout. cbv zeta in Hout.
  pose proof (scrape_all_nothing fetch comp_urls_text Hin) as Hnil.
  set (df := map normalize_row raw) in *.
  set (index := build_comp_by_unit None
                  (scrape_all fetch (parse_urls comp_urls_text)) df) in *.
  destruct (apply_suggest p index df) as [ss|e] eqn:Hss; simpl in Hout;
    [|discriminate].
  injection Hout as <-. apply apply_suggest_spec in Hss.
  destruct (Forall2_combine_fst _ _ _ Hss) as [_ H].
  eapply Forall_impl; [exact H|].
  intros [row s] Hs.
  assert (comp_avg_of index (unit_type row) = NaN) as Hnan
    by (apply index_without_input; exact Hnil).
  split.
  - rewrite <- Hs. apply suggest_index_ext. rewrite Hnan. reflexivity.
  - eapply suggest_no_comp_rationale; eassumption.
Qed.

Lemma no_competitor_input_no_signal_witness :
  Forall (fun '(row, s) =>
            suggest policy_default ∅ row = Ok s /\
            starts_with "No competitor data; using policy caps/standard."
              (rationale s) = true)
    [(normalize_row row_1000,
      {| suggested_rate := 1170; action := "set";
         rationale := "No competitor data; using policy caps/standard. No pending; set $1170." |})].
Proof.
  apply (no_competitor_input_no_signal policy_default "  "
           fetch_sample [row_1000]).
  - left. reflexivity.
  - vm_compute. reflexivity.
Defined.

(** ** Normalised keys are fixed points *)

Lemma tighten_x_idem (s : string) : tighten_x (tighten_x s) = tighten_x s.
Proof.
  induction s as [|c s IH]; [reflexivity|]. cbn [tighten_x].
  destruct (is_x c) eqn:Hx.
  - cbn [tighten_x]. change (is_x "x") with true. cbv iota.
    rewrite <- lstrip_tighten_x, IH, lstrip_idem. reflexivity.
  - destruct (is_space c && starts_with "x" (tighten_x s)) eqn:E; [exact IH|].
    cbn [tighten_x]. rewrite Hx, IH, E. reflexivity.
Qed.

Lemma lstrip_decomp (u : string) :
  exists w : string, all_space w = true /\ u = w +:+ lstrip u.
Proof.
  induction u as [|c u (w & Hw & IH)]; [exists ""; split; reflexivity|].
  cbn [lstrip]. destruct (is_space c) eqn:Hc.
  - exists (String c w). split; [cbn [all_space]; rewrite Hc; exact Hw|].
    rewrite append_cons, <- IH. reflexivity.
  - exists "". split; reflexivity.
Qed.

Lemma rstrip_decomp (u : string) :
  exists w : string, all_space w = true /\ u = rstrip u +:+ w.
Proof.
  induction u as [|c u (w & Hw & IH)]; [exists ""; split; reflexivity|].
  cbn [rstrip]. destruct (rstrip u) as [|d r] eqn:E.
  - destruct (is_space c) eqn:Hc.
    + exists (String c w). split; [cbn [all_space]; rewrite Hc; exact Hw|].
      rewrite append_nil in *. rewrite <- IH. reflexivity.
    + exists w. split; [exact Hw|]. rewrite append_cons, <- IH. reflexivity.
  - exists w. split; [exact Hw|]. rewrite append_cons, <- IH. reflexivity.
Qed.

Lemma strip_tighten_strip (u : string) :
  str_strip (tighten_x (str_strip u)) = str_strip (tighten_x u).
Proof.
  destruct (lstrip_decomp u) as (w1 & H1 & Hu).
  destruct (rstrip_decomp (lstrip u)) as (w2 & H2 & Hv).
  fold (str_strip u) in Hv.
  rewrite Hu at 2. rewrite Hv.
  symmetry. apply strip_tighten_x_ends; assumption.
Qed.

Lemma lstrip_no_capital_x (s : string) :
  no_capital_x s = true -> no_capital_x (lstrip s) = true.
Proof.
  induction s as [|c s IH]; [reflexivity|]. cbn [lstrip no_capital_x].
  intros H. destruct (is_space c); [|exact H].
  apply andb_true_iff in H as [_ Hs]. auto.
Qed.

Lemma rstrip_no_capital_x (s : string) :
  no_capital_x s = true -> no_capital_x (rstrip s) = true.
Proof.
  induction s as [|c s IH]; [reflexivity|]. cbn [rstrip no_capital_x].
  intros H. apply andb_true_iff in H as [Hc Hs]. specialize (IH Hs).
  destruct (rstrip s) as [|d r].
  - destruct (is_space c); [reflexivity|]. cbn [no_capital_x]. rewrite Hc. reflexivity.
  - cbn [no_capital_x] in *. rewrite Hc, IH. reflexivity.
Qed.

Lemma tighten_x_no_capital_x (s : string) :
  no_capital_x s = true -> no_capital_x (tighten_x s) = true.
Proof.
  induction s as [|c s IH]; [reflexivity|]. cbn [tighten_x no_capital_x].
  intros H. apply andb_true_iff in H as [Hc Hs]. specialize (IH Hs).
  destruct (is_x c).
  - cbn [no_capital_x]. rewrite (lstrip_no_capital_x _ IH). reflexivity.
  - destruct (is_space c && starts_with "x" (tighten_x s)); [exact IH|].
    cbn [no_capital_x]. rewrite Hc, IH. reflexivity.
Qed.

Lemma lower_ascii_no_capital_x (c : ascii) :
  Ascii.eqb (lower_ascii c) "X" = false.
Proof. ascii_cases c; reflexivity. Qed.

Lemma str_lower_no_capital_x (s : string) : no_capital_x (str_lower s) = true.
Proof.
  induction s as [|c s IH]; [reflexivity|].
  cbn [str_lower no_capital_x]. rewrite lower_ascii_no_capital_x, IH. reflexivity.
Qed.

Lemma unit_key_fixed (s : string) :
  no_capital_x s = true -> tenant_unit_key (tenant_unit_key s) = tenant_unit_key s.
Proof.
  intros H. rewrite (unit_key_tighten s).
  set (u := str_strip (tighten_x s)).
  assert (no_capital_x u = true) as Hu.
  { subst u. unfold str_strip.
    apply rstrip_no_capital_x, lstrip_no_capital_x, tighten_x_no_capital_x, H. }
  rewrite (unit_key_lower u Hu), unit_key_tighten. subst u.
  rewrite strip_tighten_strip, tighten_x_idem. reflexivity.
Qed.

(** X16: a key without a capital "X" is normalised to a fixed point of
    the normalisation, so a table whose keys are already normalised
    joins unchanged; for an arbitrary key the second application already
    reaches the fixed point (the first one may turn a capital "X" next
    to a blank into a lower-case "x" that is tightened only then). *)
Theorem unit_key_fixed_point (s : string) :
  (no_capital_x s = true ->
   comp_unit_key (tenant_unit_key s) = tenant_unit_key s) /\
  tenant_unit_key (tenant_unit_key (tenant_unit_key s))
  = tenant_unit_key (tenant_unit_key s).
Proof.
  change comp_unit_key with tenant_unit_key. split.
  - apply unit_key_fixed.
  - apply unit_key_fixed. unfold tenant_unit_key at 1.
    apply str_lower_no_capital_x.
Qed.

Example capital_x_needs_two_passes :
  tenant_unit_key "10 X 10" = "10 x 10" /\
  tenant_unit_key (tenant_unit_key "10 X 10") = "10x10".
Proof. split; reflexivity. Qed.

(** ** Non-negative inputs give a non-negative rate *)

Lemma round_half_even_nonneg (q : Q) : 0 <= q -> (0 <= round_half_even q)%Z.
Proof.
  intros Hq. pose proof (round_half_even_mono 0 q Hq) as H.
  change 0 with (inject_Z 0) in H at 1. rewrite round_half_even_Z in H. exact H.
Qed.

(** X18: under a policy within the sidebar's ranges, for a row with a
    non-negative tenant rate whose competitor average and standard rate
    are non-negative wherever they are known, every rate [suggest]
    returns is non-negative. *)
Theorem suggested_rate_nonneg (p : Policy) (comp_by_unit : gmap string num)
    (row : Row) (cur : Q) (s : Suggestion) :
  sidebar_ok p ->
  current_tenant_rate row = Fin cur ->
  0 <= cur ->
  (forall c : Q, comp_avg_of comp_by_unit (unit_type row) = Fin c -> 0 <= c) ->
  (forall sd : Q, current_standard_rate row = Fin sd -> 0 <= sd) ->
  suggest p comp_by_unit row = Ok s ->
  (0 <= suggested_rate s)%Z.
Proof.
  intros (_ & _ & [Hmin _] & _ & [Hb0 Hb1] & [Hs0 _] & Hstep) Hcur Hpos Hcomp Hstd
    Hret.
  assert (0 < round_step p)%Z as Hstep' by (destruct Hstep as [-> | ->]; lia).
  destruct (pre_round_target_fin p comp_by_unit row cur Hcur) as (t & Ht & _).
  destruct (envelope_target_fin p row cur Hcur) as (e & He & Hlo & _).
  assert (0 <= t) as Htpos.
  { pose proof (pre_round_target_cases p comp_by_unit row) as Hcases.
    cbv zeta in Hcases. rewrite Ht, He in Hcases.
    destruct Hcases as [H|[H|[H|H]]].
    - injection H as ->. nra.
    - destruct (comp_avg_of comp_by_unit (unit_type row)) as [|c] eqn:Hc;
        [discriminate|]. injection H as ->. specialize (Hcomp c eq_refl). nra.
    - destruct (comp_avg_of comp_by_unit (unit_type row)) as [|c] eqn:Hc;
        [discriminate|]. injection H as ->. specialize (Hcomp c eq_refl). nra.
    - destruct (current_standard_rate row) as [|sd] eqn:Hsd; [discriminate|].
      injection H as ->. specialize (Hstd sd eq_refl). nra. }
  destruct (suggest_of_pre_round p comp_by_unit row t Ht) as (s' & Hs & Hrate);
    [lia|].
  rewrite Hret in Hs. injection Hs as <-. rewrite Hrate.
  apply Z.mul_nonneg_nonneg; [|lia].
  apply round_half_even_nonneg.
  apply Qmult_le_0_compat; [exact Htpos|].
  apply Qinv_le_0_compat. change 0 with (inject_Z 0). rewrite <- Zle_Qle. lia.
Qed.

Lemma suggested_rate_nonneg_witness :
  exists s : Suggestion,
    suggest policy_default comp_800 row_over_standard = Ok s /\
    (0 <= suggested_rate s)%Z.
Proof.
  eexists. split; [vm_compute; reflexivity|].
  eapply (suggested_rate_nonneg policy_default comp_800 row_over_standard 1000).
  - unfold sidebar_ok; simpl; repeat split; try discriminate; lia.
  - reflexivity.
  - discriminate.
  - intros c [= <-]. discriminate.
  - intros sd [= <-]. discriminate.
  - vm_compute. reflexivity.
Defined.
